(** * syncengine: a batching-and-retry dispatch engine

  Shallow embedding of [engine.go] (package [syncengine]) and of the
  item type of [example_test.go], with the properties of the engine's
  specification stated and proved over it.

  Modelling choices, all read off the Go source:
  - Go [int], [int64] and [time.Duration] are 64-bit two's complement
    integers: they are [Z] values, and the arithmetic the code performs
    ([now - lastSent], [attempts[k]++]) wraps through [Int64.wrap].
  - [map[string]T] is a [gmap string T]; reading a missing key of
    [attempts] yields Go's zero value, see [getAttempt].
  - [for key, it := range m] visits the entries of [m] in an order the
    Go runtime chooses afresh each time.  Every function that ranges
    over a map takes the visiting order as an argument, and is used with
    a permutation of [map_to_list m].
  - a run-time panic is a value of [result]; the outcome of calling a
    function supplied by the caller (logger, dispatch callback) is an
    [outcome].
  - [sync.Map] is a [gmap string itemGroup]; the per-record mutex makes
    each of [Add], [Ack] and one visit of a record by a loop atomic,
    which is the granularity of the step relation [step].
  - [executor.Submit(task)] hands the closure to an executor that is not
    part of [engine.go]; a visit returns the task it submits, and
    [runTask] is the body of that closure. *)

From stdpp Require Import gmap strings list fin_maps.
From Stdlib Require Import ZArith Lia.

Local Open Scope Z_scope.

(** ** 64-bit integers *)

Module Int64.

Definition min_int : Z := - 2 ^ 63.
Definition max_int : Z := 2 ^ 63 - 1.

Definition in_range (z : Z) : Prop := min_int <= z <= max_int.

(** Two's complement reduction of a mathematical integer. *)
Definition wrap (z : Z) : Z := (z + 2 ^ 63) mod 2 ^ 64 - 2 ^ 63.

Definition add (a b : Z) : Z := wrap (a + b).
Definition sub (a b : Z) : Z := wrap (a - b).

(** Unix times in nanoseconds, as [time.Now().UnixNano()] returns them
    after 1970: their differences never wrap. *)
Definition unix_nano (t : Z) : Prop := 0 <= t <= max_int.

End Int64.

(** ** The Go run time: panics, channels, calls of function values *)

Module Runtime.

(** The value a panic carries, as [recover()] returns it. *)
Inductive panic_value : Type :=
| NilFuncCall                 (* call of a nil function value *)
| SliceBoundsOutOfRange       (* s[:n] with n outside 0..cap(s) *)
| CloseOfClosedChannel        (* close(ch) on a closed channel *)
| UserPanic (msg : string).   (* panic(v) raised by caller-supplied code *)

(** Result of engine code that may panic. *)
Inductive result (A : Type) : Type :=
| Ok (a : A)
| Panic (v : panic_value).
Arguments Ok {A} a.
Arguments Panic {A} v.

(** Sequencing: a panic aborts what follows.  With these instances
    stdpp's [x ← r; k] reads as Go's statement sequence. *)
#[export] Instance result_ret : MRet result := fun A a => Ok a.
#[export] Instance result_bind : MBind result := fun A B f r =>
  match r with
  | Ok a => f a
  | Panic v => Panic v
  end.

(** Outcome of calling a function that returns nothing. *)
Inductive outcome : Type :=
| Returned
| Panicked (v : panic_value).

Inductive chan_state : Type := ChanOpen | ChanClosed.

(** [close(ch)]. *)
Definition close (ch : chan_state) : result chan_state :=
  match ch with
  | ChanOpen => Ok ChanClosed
  | ChanClosed => Panic CloseOfClosedChannel
  end.

(** [len(s)] as a Go [int]. *)
Definition len {A : Type} (s : list A) : Z := Z.of_nat (length s).

(** [s[:n]] for a slice [s].  The engine only slices with
    [n = min(_, len(s))], so [n] never lies between [len(s)] and
    [cap(s)]; above [len(s)] the model panics. *)
Definition slice_to {A : Type} (s : list A) (n : Z) : result (list A) :=
  if (n <? 0) || (len s <? n) then Panic SliceBoundsOutOfRange
  else Ok (take (Z.to_nat n) s).

End Runtime.

Import Runtime.

(** ** The item interface ([SyncItem]) *)

Class SyncItem (T : Type) : Type := {
  Key : T -> string;        (* unique identity within the group *)
  Group : T -> string;      (* partition key *)
  Timestamp : T -> Z        (* UnixNano *)
}.

(** The item type of [example_test.go]. *)
Module ExampleTest.

Record MyItem : Type := {
  id : string;
  group : string;
  sentAt : Z;
  content : string
}.

#[export] Instance MyItem_SyncItem : SyncItem MyItem := {
  Key m := id m;
  Group m := group m;
  Timestamp m := sentAt m
}.

End ExampleTest.

(** ** The engine *)

Section Engine.

Context {Item : Type} `{SyncItem Item}.

(** [LoggerFunc]: [func(format string, args ...any)]; the only arguments
    the engine ever passes are recovered panic values. *)
Definition LoggerFunc : Type := string -> list panic_value -> outcome.

(** [Config].  A function-typed field that is nil is [None].  The
    [Executor] field is not modelled: see [Task]. *)
Record Config : Type := {
  BatchSize : Z;
  MaxRetry : Z;
  FlushAfter : Z;   (* time.Duration, nanoseconds *)
  RetryAfter : Z;   (* time.Duration, nanoseconds *)
  Tick : Z;         (* time.Duration, nanoseconds *)
  OnDispatch : option (string -> list Item -> outcome);
  Logger : option LoggerFunc
}.

(** [itemGroup], without its mutex. *)
Record itemGroup : Type := {
  items : gmap string Item;
  attempts : gmap string Z;
  lastSent : Z
}.

(** [SyncEngine].  The field [dispatchCh] is never read or written by
    [engine.go] and is left out. *)
Record SyncEngine : Type := {
  cache : gmap string itemGroup;
  cfg : Config;
  stop : chan_state
}.

(** [ig.attempts[key]] as an r-value: zero when the key is missing. *)
Definition getAttempt (att : gmap string Z) (key : string) : Z :=
  default 0 (att !! key).

(** [ig.attempts[key]++]. *)
Definition incAttempt (att : gmap string Z) (key : string) : gmap string Z :=
  <[key := Int64.add (getAttempt att key) 1]> att.

Definition NewEngine (c : Config) : SyncEngine :=
  {| cache := ∅; cfg := c; stop := ChanOpen |}.

Definition Stop (e : SyncEngine) : result SyncEngine :=
  ch ← close (stop e);
  Ok {| cache := cache e; cfg := cfg e; stop := ch |}.

(** The record [&itemGroup{items: make(..), attempts: make(..)}]. *)
Definition emptyGroup : itemGroup :=
  {| items := ∅; attempts := ∅; lastSent := 0 |}.

(** [e.cache.LoadOrStore(group, fresh)]: the record now stored under
    [group]. *)
Definition LoadOrStore (m : gmap string itemGroup) (group : string)
    (fresh : itemGroup) : gmap string itemGroup * itemGroup :=
  match m !! group with
  | Some ig => (m, ig)
  | None => (<[group := fresh]> m, fresh)
  end.

(** Writing back a record that Go mutates in place through its pointer. *)
Definition storeGroup (e : SyncEngine) (group : string) (ig : itemGroup)
    : SyncEngine :=
  {| cache := <[group := ig]> (cache e); cfg := cfg e; stop := stop e |}.

Definition Add (e : SyncEngine) (item : Item) : SyncEngine :=
  let '(m, ig) := LoadOrStore (cache e) (Group item) emptyGroup in
  {| cache := <[Group item :=
                 {| items := <[Key item := item]> (items ig);
                    attempts := attempts ig;
                    lastSent := lastSent ig |}]> m;
     cfg := cfg e;
     stop := stop e |}.

(** The loop body of [Ack]: [delete(ig.items, k); delete(ig.attempts, k)]. *)
Definition ackKey (ig : itemGroup) (k : string) : itemGroup :=
  {| items := delete k (items ig);
     attempts := delete k (attempts ig);
     lastSent := lastSent ig |}.

Definition Ack (e : SyncEngine) (group : string) (keys : list string)
    : SyncEngine :=
  match cache e !! group with
  | None => e
  | Some ig => storeGroup e group (foldl ackKey ig keys)
  end.

(** *** Submitted tasks *)

(** Which loop built the closure handed to [executor.Submit]. *)
Inductive task_kind : Type := DispatchTask | RetryTask.

(** The closure handed to [executor.Submit]: it captures the group and
    the batch, and differs between the two loops only in its first log
    line. *)
Record Task : Type := {
  kind : task_kind;
  tgroup : string;
  batch : list Item
}.

(** *** One visit of a record by [dispatchLoop] *)

(** The first loop of the visit: the items whose attempt count reads
    zero, in visiting order. *)
Fixpoint collectUnsent (att : gmap string Z) (l : list (string * Item))
    : list Item :=
  match l with
  | [] => []
  | (key, it) :: l' =>
      if getAttempt att key =? 0 then it :: collectUnsent att l'
      else collectUnsent att l'
  end.

(** [for _, b := range batch { ig.attempts[b.Key()]++ }]. *)
Definition markSent (att : gmap string Z) (b : list Item) : gmap string Z :=
  foldl (fun a it => incAttempt a (Key it)) att b.

(** The flush condition, line 96:
    [len(unsent) >= BatchSize || now-ig.lastSent > FlushAfter]. *)
Definition shouldFlush (c : Config) (now : Z) (ig : itemGroup)
    (unsent : list Item) : bool :=
  (BatchSize c <=? len unsent)
  || (FlushAfter c <? Int64.sub now (lastSent ig)).

(** The body of the [Range] callback of [dispatchLoop], between
    [ig.mu.Lock()] and [ig.mu.Unlock()].  [now] is the time read at the
    tick, [now2] the second reading stored in [lastSent], [l] the order
    in which [range ig.items] visits the entries. *)
Definition dispatchGroup (c : Config) (k : string) (now now2 : Z)
    (l : list (string * Item)) (ig : itemGroup)
    : result (itemGroup * option Task) :=
  let unsent := collectUnsent (attempts ig) l in
  if (0 <? len unsent) && shouldFlush c now ig unsent then
    b ← slice_to unsent (Z.min (BatchSize c) (len unsent));
    Ok ({| items := items ig;
           attempts := markSent (attempts ig) b;
           lastSent := now2 |},
        Some {| kind := DispatchTask; tgroup := k; batch := b |})
  else Ok (ig, None).

(** *** One visit of a record by [retryLoop] *)

(** The loop over [ig.items]: it bumps the counters below [maxRetry]
    while it appends the items to [retryable]. *)
Fixpoint collectRetry (maxRetry : Z) (l : list (string * Item))
    (att : gmap string Z) (retryable : list Item)
    : gmap string Z * list Item :=
  match l with
  | [] => (att, retryable)
  | (key, it) :: l' =>
      if getAttempt att key <? maxRetry
      then collectRetry maxRetry l' (incAttempt att key) (retryable ++ [it])
      else collectRetry maxRetry l' att retryable
  end.

(** The body of the [Range] callback of [retryLoop]. *)
Definition retryGroup (c : Config) (group : string) (now : Z)
    (l : list (string * Item)) (ig : itemGroup)
    : itemGroup * option Task :=
  if Z.of_nat (size (items ig)) =? 0 then (ig, None)
  else if lastSent ig =? 0 then (ig, None)
  else if Int64.sub now (lastSent ig) <? RetryAfter c then (ig, None)
  else
    let '(att, retryable) := collectRetry (MaxRetry c) l (attempts ig) [] in
    if 0 <? len retryable then
      ({| items := items ig; attempts := att; lastSent := now |},
       Some {| kind := RetryTask; tgroup := group; batch := retryable |})
    else
      ({| items := items ig; attempts := att; lastSent := lastSent ig |},
       None).

(** *** The closure run by the executor *)

(** What a task does that the outside can see. *)
Inductive event : Type :=
| Logged (format : string) (args : list panic_value)
| Dispatched (group : string) (b : list Item).

(** [e.cfg.Logger(format, args...)]: calling a nil function panics
    before anything is logged. *)
Definition callLogger (c : Config) (format : string)
    (args : list panic_value) : list event * outcome :=
  match Logger c with
  | None => ([], Panicked NilFuncCall)
  | Some f => ([Logged format args], f format args)
  end.

(** [e.cfg.OnDispatch(group, batch)]. *)
Definition callOnDispatch (c : Config) (group : string) (b : list Item)
    : list event * outcome :=
  match OnDispatch c with
  | None => ([], Panicked NilFuncCall)
  | Some f => ([Dispatched group b], f group b)
  end.

Definition startMessage (k : task_kind) : string :=
  match k with
  | DispatchTask => "start dispatch..."
  | RetryTask => "start retrying..."
  end.

Definition warnFormat : string := "[WARN] dispatch panic: %v".

(** The deferred function when [recover()] returned [r], which is not
    nil: the engine uses the built-in [min], so it is compiled as Go 1.21
    or later, where [recover] returns a non-nil value for every panic.
    Nothing recovers a panic of the logger call made here, so it leaves
    the task. *)
Definition recovered (c : Config) (r : panic_value)
    : list event * outcome :=
  callLogger c warnFormat [r].

(** The task body with its deferred recovery: the events in call order
    and how the task ends.  [Panicked v] is a panic that leaves the
    closure. *)
Definition runTask (c : Config) (t : Task) : list event * outcome :=
  let '(ev1, o1) := callLogger c (startMessage (kind t)) [] in
  match o1 with
  | Panicked r =>
      let '(ev3, o3) := recovered c r in (ev1 ++ ev3, o3)
  | Returned =>
      let '(ev2, o2) := callOnDispatch c (tgroup t) (batch t) in
      match o2 with
      | Panicked r =>
          let '(ev3, o3) := recovered c r in (ev1 ++ ev2 ++ ev3, o3)
      | Returned => (ev1 ++ ev2, Returned)
      end
  end.

(** Running submitted tasks one after the other.  A panic that leaves a
    task is recovered by nobody and ends the process: the tasks after it
    do not run. *)
Fixpoint runTasks (c : Config) (ts : list Task)
    : list (list event) * outcome :=
  match ts with
  | [] => ([], Returned)
  | t :: ts' =>
      match runTask c t with
      | (evs, Returned) =>
          let '(rest, o) := runTasks c ts' in (evs :: rest, o)
      | (evs, Panicked v) => ([evs], Panicked v)
      end
  end.

(** *** Atomic steps of a running engine *)

(** One step is one critical section: an [Add], an [Ack], or the visit
    of one record by one of the two loops, with any clock readings and
    any visiting order of the record's items. *)
Inductive step : SyncEngine -> SyncEngine -> Prop :=
| step_Add e item :
    step e (Add e item)
| step_Ack e group keys :
    step e (Ack e group keys)
| step_dispatch e k ig now now2 l ig' t :
    cache e !! k = Some ig ->
    l ≡ₚ map_to_list (items ig) ->
    dispatchGroup (cfg e) k now now2 l ig = Ok (ig', t) ->
    step e (storeGroup e k ig')
| step_retry e k ig now l ig' t :
    cache e !! k = Some ig ->
    l ≡ₚ map_to_list (items ig) ->
    retryGroup (cfg e) k now l ig = (ig', t) ->
    step e (storeGroup e k ig').

(** Is [key] stored in [group], and with which attempt count. *)
Definition present (e : SyncEngine) (group key : string) : Prop :=
  exists ig, cache e !! group = Some ig /\ is_Some (items ig !! key).

Definition attemptOf (e : SyncEngine) (group key : string) : Z :=
  match cache e !! group with
  | Some ig => getAttempt (attempts ig) key
  | None => 0
  end.

(** A run during which [key] stays stored in [group]. *)
Inductive keeps (group key : string) : SyncEngine -> SyncEngine -> Prop :=
| keeps_refl e :
    present e group key -> keeps group key e e
| keeps_step e1 e2 e3 :
    keeps group key e1 e2 -> step e2 e3 -> present e3 group key ->
    keeps group key e1 e3.

(** *** Well-formed states *)

(** Every item is stored under its own key, as [Add] stores it. *)
Definition keyed (ig : itemGroup) : Prop :=
  forall k it, items ig !! k = Some it -> Key it = k.

(** The counters are Go [int]s. *)
Definition typedGroup (ig : itemGroup) : Prop :=
  forall k a, attempts ig !! k = Some a -> Int64.in_range a.

(** The counters of a record lie between 0 and [max 1 M]. *)
Definition bounded (M : Z) (ig : itemGroup) : Prop :=
  forall k a, attempts ig !! k = Some a -> 0 <= a <= Z.max 1 M.

(** The invariant of a running engine: [MaxRetry] is a Go [int], items
    are stored under their own keys, counters lie between 0 and
    [max 1 MaxRetry]. *)
Definition Inv (e : SyncEngine) : Prop :=
  Int64.in_range (MaxRetry (cfg e))
  /\ forall g ig, cache e !! g = Some ig ->
       keyed ig /\ bounded (MaxRetry (cfg e)) ig.

(** The items a visit hands to the dispatch callback, none when no task
    is submitted. *)
Definition dispatched (t : option Task) : list Item :=
  from_option batch [] t.

(** The retry batch of a record that is not skipped: the items whose
    counter is below [MaxRetry], in visiting order. *)
Definition retryableOf (c : Config) (l : list (string * Item))
    (ig : itemGroup) : list Item :=
  (filter (fun p => getAttempt (attempts ig) p.1 < MaxRetry c) l).*2.

(** The three guards at the head of a retry visit, lines 141 to 152:
    no items, never sent, or [now-ig.lastSent < RetryAfter]. *)
Definition retrySkips (c : Config) (now : Z) (ig : itemGroup) : Prop :=
  items ig = ∅ \/ lastSent ig = 0 \/ now - lastSent ig < RetryAfter c.

(** *** The properties the specification states that the code does not
    have, in the specification's words *)

(** "Skip if the group has no items, or has never been dispatched, or has
    not yet exceeded [RetryAfter] since [lastDispatch]." *)
Definition specSkipsRetry (c : Config) (now : Z) (ig : itemGroup) : Prop :=
  items ig = ∅ \/ lastSent ig = 0 \/ now - lastSent ig <= RetryAfter c.

(** "... the record is skipped (left entirely unchanged) exactly when
    ..." *)
Definition specRetrySkip : Prop :=
  forall c group now l ig,
    l ≡ₚ map_to_list (items ig) ->
    Int64.unix_nano now -> Int64.unix_nano (lastSent ig) ->
    specSkipsRetry c now ig ->
    retryGroup c group now l ig = (ig, None).

(** "The stored attempt count [...] never exceeds [MaxRetry]." *)
Definition specAttemptsBounded : Prop :=
  forall e group key,
    rtc step (NewEngine (cfg e)) e ->
    attemptOf e group key <= MaxRetry (cfg e).

(** "[lastDispatch == 0] is treated as infinitely elapsed, so a non-empty
    group with at least one unsent item always flushes even below
    [BatchSize]." *)
Definition specNeverSentFlushes : Prop :=
  forall c now ig l,
    l ≡ₚ map_to_list (items ig) ->
    Int64.unix_nano now ->
    lastSent ig = 0 ->
    collectUnsent (attempts ig) l <> [] ->
    shouldFlush c now ig (collectUnsent (attempts ig) l) = true.

(** "When a group is eligible for retry, the retry batch also includes
    every item with attempt count 0." *)
Definition specRetrySendsUnsent : Prop :=
  forall c group now l ig k it,
    l ≡ₚ map_to_list (items ig) ->
    Int64.unix_nano now -> Int64.unix_nano (lastSent ig) ->
    lastSent ig <> 0 ->
    RetryAfter c < now - lastSent ig ->
    items ig !! k = Some it ->
    getAttempt (attempts ig) k = 0 ->
    it ∈ dispatched (retryGroup c group now l ig).2
    /\ getAttempt (attempts (retryGroup c group now l ig).1) k = 1.

(** *** Lookups *)

(** The item stored under [key] in [group], if any. *)
Definition itemOf (e : SyncEngine) (group key : string) : option Item :=
  cache e !! group ≫= fun ig => items ig !! key.

(** *** Whole ticks *)

(** [e.cache.Range(f)] for a callback [f] that always returns [true], as
    the callbacks of both loops do.  [gs] is the order in which
    [sync.Map] yields the groups.  The callback changes the record
    through its pointer, which the model writes back, and hands at most
    one task to the executor, which the range appends to [submitted].
    Nothing in the loops recovers a panic of the callback: it ends the
    range. *)
Fixpoint Range
    (visit : string -> itemGroup -> result (itemGroup * option Task))
    (gs : list string) (m : gmap string itemGroup) (submitted : list Task)
    : result (gmap string itemGroup * list Task) :=
  match gs with
  | [] => Ok (m, submitted)
  | g :: gs' =>
      match m !! g with
      | None => Range visit gs' m submitted
      | Some ig =>
          match visit g ig with
          | Ok r =>
              Range visit gs' (<[g := r.1]> m) (submitted ++ option_list r.2)
          | Panic v => Panic v
          end
      end
  end.

(** The [case <-ticker.C] branch of [dispatchLoop], lines 85 to 123.
    [now] is read once for the tick, [clock g] is the reading stored in
    [lastSent] when group [g] is dispatched, [ord g] is the order in
    which the items of [g] are visited. *)
Definition dispatchTick (e : SyncEngine) (now : Z) (clock : string -> Z)
    (ord : string -> list (string * Item)) (gs : list string)
    : result (SyncEngine * list Task) :=
  r ← Range (fun g ig => dispatchGroup (cfg e) g now (clock g) (ord g) ig)
        gs (cache e) [];
  Ok ({| cache := r.1; cfg := cfg e; stop := stop e |}, r.2).

(** The [case <-ticker.C] branch of [retryLoop], lines 135 to 181. *)
Definition retryTick (e : SyncEngine) (now : Z)
    (ord : string -> list (string * Item)) (gs : list string)
    : result (SyncEngine * list Task) :=
  r ← Range (fun g ig => Ok (retryGroup (cfg e) g now (ord g) ig))
        gs (cache e) [];
  Ok ({| cache := r.1; cfg := cfg e; stop := stop e |}, r.2).

(** The orders a tick can meet when nothing else touches the engine
    during the tick: every group once, every item of a group once. *)
Definition schedule (e : SyncEngine)
    (ord : string -> list (string * Item)) (gs : list string) : Prop :=
  gs ≡ₚ (map_to_list (cache e)).*1
  /\ forall g ig, cache e !! g = Some ig -> ord g ≡ₚ map_to_list (items ig).

(** *** Counting what is handed to the callback *)

(** 1 when the visit of group [k] submitted a batch that holds the item
    of [key] in [group], 0 otherwise. *)
Definition countSend (group key k : string) (t : option Task) : Z :=
  if decide (k = group /\ key ∈ Key <$> dispatched t) then 1 else 0.

(** A run during which [key] stays stored in [group], with the number of
    batches that held its item. *)
Inductive sends (group key : string)
    : SyncEngine -> SyncEngine -> Z -> Prop :=
| sends_refl e :
    present e group key -> sends group key e e 0
| sends_Add e1 e2 item n :
    sends group key e1 e2 n ->
    present (Add e2 item) group key ->
    sends group key e1 (Add e2 item) n
| sends_Ack e1 e2 g keys n :
    sends group key e1 e2 n ->
    present (Ack e2 g keys) group key ->
    sends group key e1 (Ack e2 g keys) n
| sends_dispatch e1 e2 k ig now now2 l ig' t n :
    sends group key e1 e2 n ->
    cache e2 !! k = Some ig ->
    l ≡ₚ map_to_list (items ig) ->
    dispatchGroup (cfg e2) k now now2 l ig = Ok (ig', t) ->
    present (storeGroup e2 k ig') group key ->
    sends group key e1 (storeGroup e2 k ig') (n + countSend group key k t)
| sends_retry e1 e2 k ig now l ig' t n :
    sends group key e1 e2 n ->
    cache e2 !! k = Some ig ->
    l ≡ₚ map_to_list (items ig) ->
    retryGroup (cfg e2) k now l ig = (ig', t) ->
    present (storeGroup e2 k ig') group key ->
    sends group key e1 (storeGroup e2 k ig') (n + countSend group key k t).

(** *** Counters belong to stored items *)

(** Every key that has a counter has an item. *)
Definition tidy (ig : itemGroup) : Prop :=
  forall k, is_Some (attempts ig !! k) -> is_Some (items ig !! k).

Definition Tidy (e : SyncEngine) : Prop :=
  forall g ig, cache e !! g = Some ig -> keyed ig /\ tidy ig.

End Engine.

Arguments Config Item : clear implicits.
Arguments itemGroup Item : clear implicits.
Arguments SyncEngine Item : clear implicits.
Arguments Task Item : clear implicits.
Arguments event Item : clear implicits.

(** ** Concrete engines, built from the item type of [example_test.go] *)

Module Scenario.

Import ExampleTest.

Definition order (n : string) : MyItem :=
  {| id := n; group := "JP101"; sentAt := 0; content := n |}.

(** A callback that returns, one that panics, a logger that returns. *)
Definition sendOk : string -> list MyItem -> outcome :=
  fun _ _ => Returned.
Definition sendPanics : string -> list MyItem -> outcome :=
  fun _ _ => Panicked (UserPanic "boom").
Definition quietLogger : LoggerFunc :=
  fun _ _ => Returned.

(** The configuration of [ExampleSyncEngine], with a callback that
    returns; [logger] is its [Logger] field. *)
Definition exampleConfig (logger : option LoggerFunc) : Config MyItem :=
  {| BatchSize := 20; MaxRetry := 3;
     FlushAfter := 1000000000; RetryAfter := 10000000000;
     Tick := 2000000000;
     OnDispatch := Some sendOk; Logger := logger |}.

Definition withBatchSize (n : Z) (c : Config MyItem) : Config MyItem :=
  {| BatchSize := n; MaxRetry := MaxRetry c;
     FlushAfter := FlushAfter c; RetryAfter := RetryAfter c;
     Tick := Tick c; OnDispatch := OnDispatch c; Logger := Logger c |}.

Definition withMaxRetry (n : Z) (c : Config MyItem) : Config MyItem :=
  {| BatchSize := BatchSize c; MaxRetry := n;
     FlushAfter := FlushAfter c; RetryAfter := RetryAfter c;
     Tick := Tick c; OnDispatch := OnDispatch c; Logger := Logger c |}.

Definition withFlushAfter (d : Z) (c : Config MyItem) : Config MyItem :=
  {| BatchSize := BatchSize c; MaxRetry := MaxRetry c;
     FlushAfter := d; RetryAfter := RetryAfter c;
     Tick := Tick c; OnDispatch := OnDispatch c; Logger := Logger c |}.

Definition withOnDispatch (f : option (string -> list MyItem -> outcome))
    (c : Config MyItem) : Config MyItem :=
  {| BatchSize := BatchSize c; MaxRetry := MaxRetry c;
     FlushAfter := FlushAfter c; RetryAfter := RetryAfter c;
     Tick := Tick c; OnDispatch := f; Logger := Logger c |}.

(** The configurations of the examples. *)
Definition logging : Config MyItem := exampleConfig (Some quietLogger).
Definition noLogger : Config MyItem := exampleConfig None.
Definition batchesOfTwo : Config MyItem := withBatchSize 2 logging.
Definition noRetry : Config MyItem := withMaxRetry 0 logging.

(** Nanoseconds in a year of 365 days. *)
Definition year : Z := 365 * 24 * 3600 * 1000000000.

(** A flush deadline of a hundred years: a valid [time.Duration]. *)
Definition patient : Config MyItem := withFlushAfter (100 * year) logging.

(** A clock reading in 2026, 56 years after 1970. *)
Definition t0 : Z := 56 * year.

(** The record of a group as the engine holds it. *)
Definition groupOf (e : SyncEngine MyItem) (g : string) : itemGroup MyItem :=
  default emptyGroup (cache e !! g).

(** The visiting order used in the examples. *)
Definition rangeOf (ig : itemGroup MyItem) : list (string * MyItem) :=
  map_to_list (items ig).

(** One order, and three orders, added to a fresh engine. *)
Definition oneAdded (c : Config MyItem) : SyncEngine MyItem :=
  Add (NewEngine c) (order "ORD_000").

Definition threeAdded (c : Config MyItem) : SyncEngine MyItem :=
  Add (Add (Add (NewEngine c) (order "ORD_000")) (order "ORD_001"))
    (order "ORD_002").

(** The record of [oneAdded]: one order, never sent. *)
Definition neverSent : itemGroup MyItem :=
  {| items := {[ "ORD_000" := order "ORD_000" ]};
     attempts := ∅;
     lastSent := 0 |}.

(** The same record after its order was dispatched once, at [t0]. *)
Definition sentOnce : itemGroup MyItem :=
  {| items := {[ "ORD_000" := order "ORD_000" ]};
     attempts := {[ "ORD_000" := 1 ]};
     lastSent := t0 |}.

(** The task that dispatch submitted. *)
Definition firstTask : Task MyItem :=
  {| kind := DispatchTask; tgroup := "JP101"; batch := [order "ORD_000"] |}.

(** [sentOnce] after a first retry at time [t]. *)
Definition retriedAt (t : Z) : itemGroup MyItem :=
  {| items := {[ "ORD_000" := order "ORD_000" ]};
     attempts := {[ "ORD_000" := 2 ]};
     lastSent := t |}.

Definition retryTask : Task MyItem :=
  {| kind := RetryTask; tgroup := "JP101"; batch := [order "ORD_000"] |}.

(** [sentOnce] after a second order was added that no dispatch visit has
    seen yet. *)
Definition sentThenAdded : itemGroup MyItem :=
  {| items := <[ "ORD_001" := order "ORD_001" ]>
                {[ "ORD_000" := order "ORD_000" ]};
     attempts := {[ "ORD_000" := 1 ]};
     lastSent := t0 |}.

(** An order with the key of ["ORD_000"] and another payload. *)
Definition revised : MyItem :=
  {| id := "ORD_000"; group := "JP101"; sentAt := 7; content := "revised" |}.

(** A configuration with [BatchSize = 0]. *)
Definition emptyBatches : Config MyItem := withBatchSize 0 logging.

(** The order of the groups and of the items of each group that the
    examples use for a tick of an engine. *)
Definition groupsOf (e : SyncEngine MyItem) : list string :=
  (map_to_list (cache e)).*1.

Definition itemsOf (e : SyncEngine MyItem) (g : string)
    : list (string * MyItem) :=
  rangeOf (groupOf e g).

(** The clock of the examples: every reading is [t0]. *)
Definition frozen : string -> Z := fun _ => t0.

End Scenario.

(** * Properties *)

(** ** Arithmetic that does not wrap *)

Module Int64Facts.

Import Int64.

Lemma wrap_in_range z : in_range z -> wrap z = z.
Proof.
    unfold in_range, min_int, max_int, wrap. intros Hz.
    rewrite Z.mod_small; lia.
Qed.

Lemma wrap_range z : in_range (wrap z).
Proof.
    unfold in_range, min_int, max_int, wrap.
    pose proof (Z.mod_pos_bound (z + 2 ^ 63) (2 ^ 64)). lia.
Qed.

Lemma add_exact a b : in_range (a + b) -> add a b = a + b.
Proof. apply wrap_in_range. Qed.

Lemma sub_exact a b : in_range (a - b) -> sub a b = a - b.
Proof. apply wrap_in_range. Qed.

Lemma sub_unix_nano a b : unix_nano a -> unix_nano b -> sub a b = a - b.
Proof.
    unfold unix_nano, max_int. intros Ha Hb. apply sub_exact.
    unfold in_range, min_int, max_int. lia.
Qed.

Lemma add_one_exact a m :
  in_range a -> in_range m -> a < m -> add a 1 = a + 1.
Proof.
  unfold in_range, min_int, max_int. intros Ha Hm Hlt. apply add_exact.
  unfold in_range, min_int, max_int. lia.
Qed.

Lemma sub_zero now : in_range now -> sub now 0 = now.
Proof. intros Hn. unfold sub. rewrite Z.sub_0_r. by apply wrap_in_range. Qed.

End Int64Facts.

(** ** The engine's entry points *)

Section EntryPoints.

Context {Item : Type} `{SyncItem Item}.

Implicit Types (e : SyncEngine Item) (ig : itemGroup Item).

Lemma itemGroup_eq ig1 ig2 :
  items ig1 = items ig2 -> attempts ig1 = attempts ig2 ->
  lastSent ig1 = lastSent ig2 -> ig1 = ig2.
Proof. destruct ig1, ig2; simpl; intros; by subst. Qed.

Lemma ackKeys_lastSent keys ig : lastSent (foldl ackKey ig keys) = lastSent ig.
Proof.
  revert ig. induction keys as [|k keys IH]; intros ig; [done|].
  simpl. by rewrite IH.
Qed.

Lemma ackKeys_items keys ig k :
  items (foldl ackKey ig keys) !! k
  = if decide (k ∈ keys) then None else items ig !! k.
Proof.
  revert ig. induction keys as [|k' keys IH]; intros ig; cbn [foldl].
  - destruct (decide (k ∈ [])) as [Hin|Hin]; [by apply elem_of_nil in Hin|done].
  - rewrite IH. cbn [ackKey items attempts].
    destruct (decide (k ∈ keys)) as [Hin|Hin],
             (decide (k ∈ k' :: keys)) as [Hin'|Hin']; try done.
    + exfalso. apply Hin'. by right.
    + apply elem_of_cons in Hin' as [->|?]; [|done]. apply lookup_delete_eq.
    + apply lookup_delete_ne. intros ->. apply Hin'. by left.
Qed.

Lemma ackKeys_attempts keys ig k :
  attempts (foldl ackKey ig keys) !! k
  = if decide (k ∈ keys) then None else attempts ig !! k.
Proof.
  revert ig. induction keys as [|k' keys IH]; intros ig; cbn [foldl].
  - destruct (decide (k ∈ [])) as [Hin|Hin]; [by apply elem_of_nil in Hin|done].
  - rewrite IH. cbn [ackKey items attempts].
    destruct (decide (k ∈ keys)) as [Hin|Hin],
             (decide (k ∈ k' :: keys)) as [Hin'|Hin']; try done.
    + exfalso. apply Hin'. by right.
    + apply elem_of_cons in Hin' as [->|?]; [|done]. apply lookup_delete_eq.
    + apply lookup_delete_ne. intros ->. apply Hin'. by left.
Qed.

Lemma ackKeys_twice keys ig :
  foldl ackKey (foldl ackKey ig keys) keys = foldl ackKey ig keys.
Proof.
  apply itemGroup_eq.
  - apply map_eq; intros k. rewrite !ackKeys_items. by case_decide.
  - apply map_eq; intros k. rewrite !ackKeys_attempts. by case_decide.
  - by rewrite !ackKeys_lastSent.
Qed.

(** C6. [Ack] is idempotent: acknowledging the same keys of the same group
    a second time leaves the engine as the first call left it, and [Ack]
    on a group the engine does not know returns the engine unchanged.
    [Ack] is a total function: no input makes it panic. *)
Theorem Ack_idempotent e group keys :
  Ack (Ack e group keys) group keys = Ack e group keys
  /\ (cache e !! group = None -> Ack e group keys = e).
Proof.
  split.
  - unfold Ack at 2 3. destruct (cache e !! group) as [ig|] eqn:Hg.
    + unfold Ack, storeGroup; simpl. rewrite lookup_insert_eq.
      by rewrite insert_insert_eq, ackKeys_twice.
    + unfold Ack. by rewrite Hg.
  - intros Hg. unfold Ack. by rewrite Hg.
Qed.

(** C7. [Add] of an item whose key is already stored in its group replaces
    the stored item and nothing else: the attempt counters and [lastSent]
    of the group are the same, the other keys of the group keep their
    items, the other groups keep their records, and the configuration and
    the stop channel are untouched. *)
Theorem Add_existing_key_frame e item ig old :
  cache e !! Group item = Some ig ->
  items ig !! Key item = Some old ->
  exists ig',
    cache (Add e item) !! Group item = Some ig'
    /\ items ig' !! Key item = Some item
    /\ (forall k, k <> Key item -> items ig' !! k = items ig !! k)
    /\ attempts ig' = attempts ig
    /\ lastSent ig' = lastSent ig
    /\ (forall g, g <> Group item -> cache (Add e item) !! g = cache e !! g)
    /\ cfg (Add e item) = cfg e
    /\ stop (Add e item) = stop e.
Proof.
  intros Hg Hk. unfold Add, LoadOrStore. rewrite Hg. simpl.
  eexists. split; [apply lookup_insert_eq|]. simpl.
  split; [apply lookup_insert_eq|].
  split; [intros k Hne; by rewrite lookup_insert_ne|].
  do 2 (split; [done|]).
  split; [intros g Hne; by rewrite lookup_insert_ne|done].
Qed.

(** C10. [Stop] closes the stop channel, so it succeeds on an engine whose
    channel is open, as [NewEngine] returns it, and a second [Stop] on the
    result panics with "close of closed channel". *)
Theorem Stop_twice_panics e :
  stop e = ChanOpen ->
  exists e', Stop e = Ok e' /\ Stop e' = Panic CloseOfClosedChannel.
Proof.
  intros Hopen. unfold Stop. rewrite Hopen. simpl.
  eexists. split; [reflexivity|]. reflexivity.
Qed.

End EntryPoints.

(** ** The submitted closure and its recovery boundary *)

Section Tasks.

  Context {Item : Type} `{SyncItem Item}.

  Implicit Types (c : Config Item) (t : Task Item).

Lemma callLogger_nil c format args :
  Logger c = None -> callLogger c format args = ([], Panicked NilFuncCall).
Proof. intros Hnil. unfold callLogger. by rewrite Hnil. Qed.

Lemma callLogger_returns c lg format args :
  Logger c = Some lg -> (forall f a, lg f a = Returned) ->
  callLogger c format args = ([Logged format args], Returned).
Proof. intros Hlg Hret. unfold callLogger. by rewrite Hlg, Hret. Qed.

(** Without a logger every task panics on its first statement, and the
    deferred function panics again while it reports the first panic. *)
Lemma runTask_nil_logger c t :
  Logger c = None -> runTask c t = ([], Panicked NilFuncCall).
Proof.
  intros Hnil. unfold runTask, recovered.
  by rewrite !(callLogger_nil _ _ _ Hnil).
Qed.

(** With a logger that returns, a task returns whatever the callback
    does. *)
Lemma runTask_returns c lg t :
  Logger c = Some lg -> (forall f a, lg f a = Returned) ->
  (runTask c t).2 = Returned.
Proof.
  intros Hlg Hret. unfold runTask, recovered.
  rewrite (callLogger_returns _ _ _ _ Hlg Hret).
  destruct (callOnDispatch c (tgroup t) (batch t)) as [ev2 [|r]]; [done|].
  by rewrite (callLogger_returns _ _ _ _ Hlg Hret).
Qed.

Lemma runTasks_all_return c lg ts :
  Logger c = Some lg -> (forall f a, lg f a = Returned) ->
  (runTasks c ts).2 = Returned /\ length (runTasks c ts).1 = length ts.
Proof.
  intros Hlg Hret. induction ts as [|t ts [IH1 IH2]]; [done|].
  cbn [runTasks]. pose proof (runTask_returns c lg t Hlg Hret) as Ht.
  destruct (runTask c t) as [evs o]. simpl in Ht. subst o.
  destruct (runTasks c ts) as [rest o']. simpl in *. by rewrite IH2.
Qed.

(** C5. With a logger that returns, a panic of the dispatch callback is
    recovered at the task boundary: the task logs the warning with the
    recovered value and returns.  A nil callback is the panic of calling a
    nil function and is handled the same way.  Whatever the callback does,
    every task of a list of submitted tasks runs and returns, so a
    panicking callback stops neither the tasks after it nor the loops,
    whose visits never read the outcome of a task. *)
Theorem callback_panic_recovered c lg :
  Logger c = Some lg ->
  (forall f a, lg f a = Returned) ->
  (forall t v,
     (callOnDispatch c (tgroup t) (batch t)).2 = Panicked v ->
     (runTask c t).2 = Returned
     /\ Logged warnFormat [v] ∈ (runTask c t).1)
  /\ (OnDispatch c = None ->
      forall t,
        runTask c t
        = ([Logged (startMessage (kind t)) []; Logged warnFormat [NilFuncCall]],
           Returned))
  /\ (forall ts,
        (runTasks c ts).2 = Returned
        /\ length (runTasks c ts).1 = length ts).
Proof.
  intros Hlg Hret. split; [|split].
  - intros t v Hpanic. split; [by eapply runTask_returns|].
    unfold runTask, recovered.
    rewrite (callLogger_returns _ _ _ _ Hlg Hret).
    destruct (callOnDispatch c (tgroup t) (batch t)) as [ev2 o2].
    simpl in Hpanic. subst o2.
    rewrite (callLogger_returns _ _ _ _ Hlg Hret). simpl.
    apply elem_of_cons. right. apply elem_of_app. right. by left.
  - intros Hnil t. unfold runTask, recovered, callOnDispatch.
    rewrite Hnil. by rewrite !(callLogger_returns _ _ _ _ Hlg Hret).
  - intros ts. by eapply runTasks_all_return.
Qed.

End Tasks.

(** ** Visits of a record by the two loops *)

Section Visits.

  Context {Item : Type} `{SyncItem Item}.

  Implicit Types (c : Config Item) (ig : itemGroup Item)
    (l : list (string * Item)) (att : gmap string Z).

(** *** Visiting orders *)

Lemma range_NoDup (m : gmap string Item) l :
  l ≡ₚ map_to_list m -> NoDup l.*1.
Proof. intros Hl. rewrite Hl. apply NoDup_fst_map_to_list. Qed.

Lemma range_elem (m : gmap string Item) l k it :
  l ≡ₚ map_to_list m -> (k, it) ∈ l <-> m !! k = Some it.
Proof. intros Hl. rewrite Hl. apply elem_of_map_to_list. Qed.


(** *** Counters *)

Lemma getAttempt_incAttempt_eq att k :
  getAttempt (incAttempt att k) k = Int64.add (getAttempt att k) 1.
Proof. unfold getAttempt at 1, incAttempt. by rewrite lookup_insert_eq. Qed.

Lemma lookup_incAttempt_ne att k k' :
  k <> k' -> incAttempt att k !! k' = att !! k'.
Proof. intros Hne. unfold incAttempt. by rewrite lookup_insert_ne. Qed.

Lemma getAttempt_incAttempt_ne att k k' :
  k <> k' -> getAttempt (incAttempt att k) k' = getAttempt att k'.
Proof. intros Hne. unfold getAttempt. by rewrite lookup_incAttempt_ne. Qed.

(** *** The dispatch visit *)

Lemma collectUnsent_filter att l :
  collectUnsent att l = (filter (fun p => getAttempt att p.1 = 0) l).*2.
Proof.
  induction l as [|[key it] l IH]; [done|]. cbn [collectUnsent].
  destruct (Z.eqb_spec (getAttempt att key) 0) as [Hz|Hnz].
  - rewrite filter_cons_True; [|done]. by rewrite IH.
  - by rewrite filter_cons_False.
Qed.

Lemma keyed_range ig l :
  keyed ig -> l ≡ₚ map_to_list (items ig) ->
  Forall (fun p => Key p.2 = p.1) l.
Proof.
  intros Hkeyed Hl. apply Forall_forall. intros [k it] Hin.
  apply (range_elem _ _ _ _ Hl) in Hin. by apply Hkeyed.
Qed.

Lemma keys_of_values (l : list (string * Item)) :
  Forall (fun p => Key p.2 = p.1) l -> Key <$> l.*2 = l.*1.
Proof.
  induction 1 as [|[k it] l Hk _ IH]; [done|].
  rewrite !fmap_cons. f_equal; [exact Hk|exact IH].
Qed.

Lemma markSent_lookup_notin att b key :
  key ∉ Key <$> b -> markSent att b !! key = att !! key.
Proof.
  revert att. induction b as [|it b IH]; intros att Hnotin; [done|].
  unfold markSent in *. cbn [foldl]. rewrite IH.
  - apply lookup_incAttempt_ne. intros Heq. apply Hnotin.
    rewrite <- Heq. by left.
  - intros Hin. apply Hnotin. by right.
Qed.

Lemma markSent_getAttempt_in att b key :
  NoDup (Key <$> b) -> key ∈ Key <$> b ->
  getAttempt (markSent att b) key = Int64.add (getAttempt att key) 1.
Proof.
  revert att. induction b as [|it b IH]; intros att Hnd Hin.
  - by apply elem_of_nil in Hin.
  - rewrite fmap_cons in Hnd, Hin. apply NoDup_cons in Hnd as [Hfresh Hnd].
    unfold markSent in *. cbn [foldl].
    destruct (decide (key = Key it)) as [->|Hne].
    + unfold getAttempt at 1. fold (markSent (incAttempt att (Key it)) b).
      rewrite markSent_lookup_notin; [|done].
      apply getAttempt_incAttempt_eq.
    + apply elem_of_cons in Hin as [?|Hin]; [done|].
      rewrite IH; [|done..]. by rewrite getAttempt_incAttempt_ne.
Qed.

Lemma unsent_keys_NoDup ig l :
  keyed ig -> l ≡ₚ map_to_list (items ig) ->
  NoDup (Key <$> collectUnsent (attempts ig) l).
Proof.
  intros Hkeyed Hl. rewrite collectUnsent_filter.
  rewrite keys_of_values.
  - eapply sublist_NoDup; [by eapply range_NoDup|].
    apply fmap_sublist, sublist_filter.
  - apply Forall_forall. intros p [_ Hin]%list_elem_of_filter.
    pose proof (keyed_range ig l Hkeyed Hl) as Hall.
    by apply (proj1 (Forall_forall _ _) Hall).
Qed.

Lemma unsent_elem ig l it :
  keyed ig -> l ≡ₚ map_to_list (items ig) ->
  it ∈ collectUnsent (attempts ig) l ->
  items ig !! Key it = Some it /\ getAttempt (attempts ig) (Key it) = 0.
Proof.
  intros Hkeyed Hl. rewrite collectUnsent_filter.
  intros ([k it'] & -> & [Hzero Hin]%list_elem_of_filter)%list_elem_of_fmap.
  apply (range_elem _ _ _ _ Hl) in Hin. simpl in *.
  by rewrite (Hkeyed _ _ Hin).
Qed.

(** C1. A dispatch visit of a record that holds at least [BatchSize]
    unsent items (attempt count 0) hands exactly [BatchSize] of them to the
    callback: distinct stored items whose counter was 0, and none whose
    counter was positive.  The counters of exactly those items become 1;
    every other counter, so also that of each remaining unsent item, is
    left as it was, and the stored items are the same.  ([BatchSize] is a
    count: it is not negative.  With a positive [BatchSize] a task is
    submitted.) *)
Theorem dispatch_cuts_full_batch c k now now2 l ig :
  keyed ig ->
  l ≡ₚ map_to_list (items ig) ->
  0 <= BatchSize c <= len (collectUnsent (attempts ig) l) ->
  exists ig' t,
    dispatchGroup c k now now2 l ig = Ok (ig', t)
    /\ (0 < BatchSize c ->
        t = Some {| kind := DispatchTask; tgroup := k;
                    batch := dispatched t |})
    /\ len (dispatched t) = Z.min (BatchSize c) (len (collectUnsent (attempts ig) l))
    /\ len (dispatched t) = BatchSize c
    /\ NoDup (Key <$> dispatched t)
    /\ (forall it, it ∈ dispatched t ->
          items ig !! Key it = Some it
          /\ getAttempt (attempts ig) (Key it) = 0)
    /\ items ig' = items ig
    /\ (forall key, key ∈ Key <$> dispatched t ->
          getAttempt (attempts ig') key = 1)
    /\ (forall key, key ∉ Key <$> dispatched t ->
          attempts ig' !! key = attempts ig !! key).
Proof.
  intros Hkeyed Hl [Hnonneg Hfull].
  pose proof (unsent_keys_NoDup ig l Hkeyed Hl) as Hnd.
  pose proof (fun it => unsent_elem ig l it Hkeyed Hl) as Helem.
  unfold dispatchGroup, shouldFlush.
  set (unsent := collectUnsent (attempts ig) l) in *.
  destruct (Z.ltb_spec 0 (len unsent)) as [Hpos|Hempty].
  - assert ((BatchSize c <=? len unsent) = true) as -> by lia.
    cbn [andb orb]. rewrite Z.min_l by lia.
    unfold slice_to.
    assert (((BatchSize c <? 0) || (len unsent <? BatchSize c)) = false) as ->.
    { apply orb_false_iff. split; lia. }
    cbn [mbind result_bind]. do 2 eexists. split; [reflexivity|].
    cbn [dispatched from_option batch items attempts].
    set (b := take (Z.to_nat (BatchSize c)) unsent).
    assert (b `sublist_of` unsent) as Hsub by apply sublist_take.
    assert (NoDup (Key <$> b)) as Hndb.
    { eapply sublist_NoDup; [exact Hnd|]. by apply fmap_sublist. }
    assert (len b = BatchSize c) as Hlen.
    { unfold len, b in *. rewrite length_take_le; lia. }
    split; [done|]. split; [done|]. split; [done|]. split; [done|].
    split.
    { intros it Hin. apply Helem. eapply sublist_subseteq; eauto. }
    split; [done|]. split.
    + intros key Hin. rewrite markSent_getAttempt_in by done.
      apply (list_elem_of_fmap_1 Key) in Hin as (it & -> & Hin).
      assert (it ∈ unsent) as Hin' by (eapply sublist_subseteq; eauto).
      by rewrite (proj2 (Helem it Hin')).
    + intros key Hnotin. by apply markSent_lookup_notin.
  - cbn [andb]. assert (BatchSize c = 0) as Hzero by lia.
    assert (unsent = []) as Hnil.
    { destruct unsent; [done|]. unfold len in Hempty. simpl in Hempty. lia. }
    do 2 eexists. split; [reflexivity|]. rewrite Hnil, Hzero.
    cbn [dispatched from_option].
    split; [lia|]. split; [done|]. split; [done|]. split; [constructor|].
    split; [by intros it ?%elem_of_nil|]. split; [done|].
    split; [by intros key ?%elem_of_nil|done].
Qed.

(** *** The retry visit *)

Lemma filter_iff_in {A} (P Q : A -> Prop) `{!forall x, Decision (P x)}
    `{!forall x, Decision (Q x)} (xs : list A) :
  (forall x, x ∈ xs -> P x <-> Q x) -> filter P xs = filter Q xs.
Proof.
  induction xs as [|x xs IH]; intros Hiff; [done|].
  rewrite !filter_cons.
  rewrite IH by (intros y Hy; apply Hiff; by right).
  destruct (decide (P x)) as [HP|HP], (decide (Q x)) as [HQ|HQ]; try done.
  - exfalso. apply HQ, Hiff; [by left|done].
  - exfalso. apply HP, Hiff; [by left|done].
Qed.

Lemma collectRetry_snd m l att acc :
  NoDup l.*1 ->
  (collectRetry m l att acc).2
  = acc ++ (filter (fun p => getAttempt att p.1 < m) l).*2.
Proof.
  revert att acc. induction l as [|[key it] l IH]; intros att acc Hnd.
  - simpl. by rewrite app_nil_r.
  - rewrite fmap_cons in Hnd. apply NoDup_cons in Hnd as [Hfresh Hnd].
    cbn [collectRetry]. destruct (Z.ltb_spec (getAttempt att key) m) as [Hlt|Hge].
    + rewrite IH by done. rewrite filter_cons_True by done.
      rewrite fmap_cons, <- app_assoc. simpl. do 3 f_equal.
      apply filter_iff_in. intros [k' it'] Hin. simpl.
      rewrite getAttempt_incAttempt_ne; [done|].
      intros ->. apply Hfresh. by apply (list_elem_of_fmap_2 fst) in Hin.
    + rewrite IH by done. rewrite filter_cons_False; [done|simpl; lia].
Qed.

Lemma collectRetry_fst_other m l att acc k :
  k ∉ l.*1 \/ ~ getAttempt att k < m ->
  (collectRetry m l att acc).1 !! k = att !! k.
Proof.
  revert att acc. induction l as [|[key it] l IH]; intros att acc Hk; [done|].
  cbn [collectRetry]. rewrite fmap_cons in Hk.
  destruct (Z.ltb_spec (getAttempt att key) m) as [Hlt|Hge].
  - assert (key <> k) as Hne.
    { intros ->. destruct Hk as [Hk|Hk]; [apply Hk; by left|done]. }
    rewrite IH.
    + by apply lookup_incAttempt_ne.
    + rewrite getAttempt_incAttempt_ne by done.
      destruct Hk as [Hk|Hk]; [left|by right].
      intros Hin. apply Hk. by right.
  - apply IH. destruct Hk as [Hk|Hk]; [left|by right].
    intros Hin. apply Hk. by right.
Qed.

Lemma collectRetry_fst_in m l att acc k :
  NoDup l.*1 -> k ∈ l.*1 -> getAttempt att k < m ->
  (collectRetry m l att acc).1 !! k = Some (Int64.add (getAttempt att k) 1).
Proof.
  revert att acc. induction l as [|[key it] l IH]; intros att acc Hnd Hin Hlt.
  - by apply elem_of_nil in Hin.
  - rewrite fmap_cons in Hnd, Hin. apply NoDup_cons in Hnd as [Hfresh Hnd].
    cbn [collectRetry]. simpl in Hin, Hfresh.
    destruct (decide (key = k)) as [->|Hne].
    + assert ((getAttempt att k <? m) = true) as -> by lia.
      rewrite collectRetry_fst_other by (by left).
      unfold incAttempt. apply lookup_insert_eq.
    + apply elem_of_cons in Hin as [?|Hin]; [done|].
      destruct (getAttempt att key <? m).
      * rewrite IH; try done.
        -- by rewrite getAttempt_incAttempt_ne.
        -- by rewrite getAttempt_incAttempt_ne.
      * by apply IH.
Qed.

Lemma collectRetry_pair m l att acc :
  collectRetry m l att acc
  = ((collectRetry m l att acc).1, (collectRetry m l att acc).2).
Proof. by destruct (collectRetry m l att acc). Qed.

Lemma range_keys (m : gmap string Item) l k :
  l ≡ₚ map_to_list m -> k ∈ l.*1 <-> is_Some (m !! k).
Proof.
  intros Hl. split.
  - intros ([k' it] & -> & Hin)%list_elem_of_fmap.
    apply (range_elem _ _ _ _ Hl) in Hin. by eexists.
  - intros [it Hit]. apply (range_elem _ _ _ _ Hl) in Hit.
    by apply (list_elem_of_fmap_2 fst) in Hit.
Qed.

(** A record that passes the three guards: the visit is the loop over
    the items, then the test [len(retryable) > 0]. *)
Lemma retryGroup_proceeds c group now l ig :
  l ≡ₚ map_to_list (items ig) ->
  items ig <> ∅ -> lastSent ig <> 0 ->
  RetryAfter c <= Int64.sub now (lastSent ig) ->
  retryGroup c group now l ig
  = if decide (retryableOf c l ig = []) then (ig, None)
    else ({| items := items ig;
             attempts := (collectRetry (MaxRetry c) l (attempts ig) []).1;
             lastSent := now |},
          Some {| kind := RetryTask; tgroup := group;
                  batch := retryableOf c l ig |}).
Proof.
  intros Hl Hitems Hsent Hdue. unfold retryGroup.
  assert ((Z.of_nat (size (items ig)) =? 0) = false) as ->.
  { apply Z.eqb_neq. apply map_size_non_empty_iff in Hitems. lia. }
  assert ((lastSent ig =? 0) = false) as -> by lia.
  assert ((Int64.sub now (lastSent ig) <? RetryAfter c) = false) as -> by lia.
  rewrite collectRetry_pair.
  rewrite collectRetry_snd by (by eapply range_NoDup). simpl.
  fold (retryableOf c l ig).
  destruct (decide (retryableOf c l ig = [])) as [Hnil|Hsome].
  - rewrite Hnil. simpl. f_equal. apply itemGroup_eq; simpl; try done.
    apply map_eq. intros k. apply collectRetry_fst_other.
    destruct (decide (k ∈ l.*1)) as [Hin|Hnotin]; [right|by left].
    intros Hlt. apply list_elem_of_fmap in Hin as ([k' it] & -> & Hin).
    unfold retryableOf in Hnil. apply fmap_nil_inv in Hnil.
    eapply (filter_nil_not_elem_of _ _ (k', it)); eauto.
  - destruct (retryableOf c l ig) as [|it r]; [done|].
    replace (0 <? len (it :: r)) with true; [done|].
    symmetry. apply Z.ltb_lt. unfold len. rewrite length_cons. lia.
Qed.

Lemma typedGroup_getAttempt ig k :
  typedGroup ig -> Int64.in_range (getAttempt (attempts ig) k).
Proof.
  intros Htyped. unfold getAttempt.
  destruct (attempts ig !! k) as [a|] eqn:Hk; simpl; [by eapply Htyped|].
  unfold Int64.in_range, Int64.min_int, Int64.max_int. lia.
Qed.

(** C2, as the code has it.  A retry visit leaves the record as it is and
    submits nothing when the record has no items, or was never sent
    ([lastSent = 0]), or [now - lastSent] is strictly below [RetryAfter].
    In every other case, so also when [now - lastSent] equals
    [RetryAfter], the counter of every stored item whose counter is below
    [MaxRetry] grows by one and no other counter changes; when there is
    such an item, [lastSent] becomes [now] and all of them are submitted
    as one batch, whatever [BatchSize] is; when there is none, the record
    is left as it is and nothing is submitted. *)
Theorem retry_visit c group now l ig :
  l ≡ₚ map_to_list (items ig) ->
  Int64.unix_nano now -> Int64.unix_nano (lastSent ig) ->
  typedGroup ig -> Int64.in_range (MaxRetry c) ->
  (retrySkips c now ig -> retryGroup c group now l ig = (ig, None))
  /\ (~ retrySkips c now ig ->
      exists ig' t,
        retryGroup c group now l ig = (ig', t)
        /\ items ig' = items ig
        /\ (forall k, is_Some (items ig !! k) ->
              getAttempt (attempts ig) k < MaxRetry c ->
              attempts ig' !! k = Some (getAttempt (attempts ig) k + 1))
        /\ (forall k, ~ (is_Some (items ig !! k)
                         /\ getAttempt (attempts ig) k < MaxRetry c) ->
              attempts ig' !! k = attempts ig !! k)
        /\ (retryableOf c l ig <> [] ->
              lastSent ig' = now
              /\ t = Some {| kind := RetryTask; tgroup := group;
                             batch := retryableOf c l ig |})
        /\ (retryableOf c l ig = [] -> ig' = ig /\ t = None)).
Proof.
  intros Hl Hnow Hsent Htyped Hmax.
  pose proof (Int64Facts.sub_unix_nano _ _ Hnow Hsent) as Hsub.
  split.
  - intros Hskip. unfold retryGroup. rewrite Hsub.
    destruct Hskip as [Hempty|[Hnever|Hearly]].
    + rewrite Hempty, map_size_empty. done.
    + rewrite Hnever. by destruct (Z.of_nat (size (items ig)) =? 0).
    + assert ((now - lastSent ig <? RetryAfter c) = true) as -> by lia.
      by destruct (Z.of_nat (size (items ig)) =? 0), (lastSent ig =? 0).
  - intros Hgo. unfold retrySkips in Hgo.
    assert (items ig <> ∅) as Hitems by tauto.
    assert (lastSent ig <> 0) as Hever by tauto.
    assert (RetryAfter c <= Int64.sub now (lastSent ig)) as Hdue.
    { rewrite Hsub. lia. }
    rewrite (retryGroup_proceeds c group now l ig Hl Hitems Hever Hdue).
    destruct (decide (retryableOf c l ig = [])) as [Hnil|Hsome].
    + exists ig, None. split; [done|]. split; [done|]. split.
      { intros k [it Hit] Hlt. exfalso.
        apply (range_elem _ _ _ _ Hl) in Hit.
        unfold retryableOf in Hnil. apply fmap_nil_inv in Hnil.
        eapply (filter_nil_not_elem_of _ _ (k, it)); eauto. }
      split; [done|]. split; [done|]. done.
    + do 2 eexists. split; [reflexivity|]. simpl. split; [done|]. split.
      { intros k Hk Hlt.
        rewrite collectRetry_fst_in; try done.
        - f_equal. eapply Int64Facts.add_one_exact; [|exact Hmax|exact Hlt].
          by apply typedGroup_getAttempt.
        - by eapply range_NoDup.
        - by apply (range_keys _ _ _ Hl). }
      split.
      { intros k Hk. apply collectRetry_fst_other.
        destruct (decide (k ∈ l.*1)) as [Hin|Hnotin]; [right|by left].
        intros Hlt. apply Hk. split; [|done]. by apply (range_keys _ _ _ Hl). }
      split; [done|]. done.
Qed.

(** C9, as the code has it.  When a record passes the guards of the retry
    visit (it has items, it was sent before, and [now - lastSent] is at
    least [RetryAfter]) and [MaxRetry] is at least 1, every stored item
    whose counter is 0 is in the batch the visit submits, and its counter
    becomes 1.  The batch is the whole set of items below [MaxRetry]:
    [BatchSize] plays no part. *)
Theorem retry_sends_unsent c group now l ig k it :
  l ≡ₚ map_to_list (items ig) ->
  Int64.unix_nano now -> Int64.unix_nano (lastSent ig) ->
  lastSent ig <> 0 ->
  RetryAfter c <= now - lastSent ig ->
  1 <= MaxRetry c ->
  items ig !! k = Some it ->
  getAttempt (attempts ig) k = 0 ->
  it ∈ dispatched (retryGroup c group now l ig).2
  /\ getAttempt (attempts (retryGroup c group now l ig).1) k = 1
  /\ dispatched (retryGroup c group now l ig).2 = retryableOf c l ig.
Proof.
  intros Hl Hnow Hsent Hever Hdue Hmax Hit Hzero.
  assert (items ig <> ∅) as Hitems.
  { intros Hempty. rewrite Hempty in Hit. by rewrite lookup_empty in Hit. }
  rewrite <- (Int64Facts.sub_unix_nano _ _ Hnow Hsent) in Hdue.
  rewrite (retryGroup_proceeds c group now l ig Hl Hitems Hever Hdue).
  assert (it ∈ retryableOf c l ig) as Hin.
  { unfold retryableOf. apply list_elem_of_fmap. exists (k, it).
    split; [done|]. apply list_elem_of_filter. split; [simpl; lia|].
    by apply (range_elem _ _ _ _ Hl). }
  destruct (decide (retryableOf c l ig = [])) as [Hnil|Hsome].
  { rewrite Hnil in Hin. by apply elem_of_nil in Hin. }
  simpl. split; [done|]. split; [|done].
  unfold getAttempt at 1. rewrite collectRetry_fst_in.
  - by rewrite Hzero.
  - by eapply range_NoDup.
  - apply (range_keys _ _ _ Hl). by eexists.
  - lia.
Qed.

(** C8, as the code has it.  The visit has no case for a record that was
    never sent: with [lastSent = 0] the flush test compares the clock
    reading itself with [FlushAfter].  So such a record flushes, whatever
    its number of unsent items, when [now] (Unix nanoseconds) is greater
    than [FlushAfter]; and a visit of such a record that has an unsent
    item then submits the first [min BatchSize (len unsent)] of them
    ([BatchSize] not negative). *)
Theorem never_sent_flushes c k now now2 l ig :
  Int64.unix_nano now ->
  lastSent ig = 0 ->
  FlushAfter c < now ->
  shouldFlush c now ig (collectUnsent (attempts ig) l) = true
  /\ (collectUnsent (attempts ig) l <> [] -> 0 <= BatchSize c ->
      exists ig' t,
        dispatchGroup c k now now2 l ig = Ok (ig', Some t)
        /\ len (batch t)
           = Z.min (BatchSize c) (len (collectUnsent (attempts ig) l))).
Proof.
  intros Hnow Hnever Helapsed.
  assert (shouldFlush c now ig (collectUnsent (attempts ig) l) = true) as Hflush.
  { unfold shouldFlush. rewrite Hnever, Int64Facts.sub_zero.
    - apply orb_true_iff. right. lia.
    - unfold Int64.unix_nano, Int64.in_range, Int64.min_int in *. lia. }
  split; [done|]. intros Hsome Hsize.
  unfold dispatchGroup. rewrite Hflush.
  set (unsent := collectUnsent (attempts ig) l) in *.
  assert (0 < len unsent) as Hpos.
  { destruct unsent; [done|]. unfold len. rewrite length_cons. lia. }
  assert ((0 <? len unsent) = true) as -> by lia.
  cbn [andb]. unfold slice_to.
  assert (((Z.min (BatchSize c) (len unsent) <? 0)
           || (len unsent <? Z.min (BatchSize c) (len unsent))) = false) as ->.
  { apply orb_false_iff. split; lia. }
  cbn [mbind result_bind]. do 2 eexists. split; [reflexivity|].
  cbn [batch]. unfold len in *. rewrite length_take. lia.
Qed.

End Visits.

(** ** Runs of the engine *)

Section Runs.

  Context {Item : Type} `{SyncItem Item}.

  Implicit Types (c : Config Item) (e : SyncEngine Item)
    (ig : itemGroup Item) (l : list (string * Item)).

Lemma bounded_getAttempt M ig k :
  bounded M ig -> 0 <= getAttempt (attempts ig) k <= Z.max 1 M.
Proof.
  intros Hb. unfold getAttempt.
  destruct (attempts ig !! k) as [a|] eqn:Hk; simpl; [by eapply Hb|lia].
Qed.

Lemma getAttempt_lookup (att : gmap string Z) k a :
  att !! k = Some a -> getAttempt att k = a.
Proof. intros Hk. unfold getAttempt. by rewrite Hk. Qed.

(** What a dispatch visit that returns does to the record. *)
Lemma dispatchGroup_result c k now now2 l ig ig' t :
  dispatchGroup c k now now2 l ig = Ok (ig', t) ->
  (ig' = ig /\ t = None)
  \/ exists b,
       b `sublist_of` collectUnsent (attempts ig) l
       /\ ig' = {| items := items ig;
                   attempts := markSent (attempts ig) b;
                   lastSent := now2 |}
       /\ t = Some {| kind := DispatchTask; tgroup := k; batch := b |}.
Proof.
  unfold dispatchGroup, slice_to.
  set (unsent := collectUnsent (attempts ig) l).
  destruct ((0 <? len unsent) && shouldFlush c now ig unsent).
  - destruct ((Z.min (BatchSize c) (len unsent) <? 0)
              || (len unsent <? Z.min (BatchSize c) (len unsent)));
      cbn [mbind result_bind]; [done|].
    intros [= <- <-]. right. eexists. split; [apply sublist_take|done].
  - intros [= <- <-]. by left.
Qed.

(** What a retry visit does to the record. *)
Lemma retryGroup_result c group now l ig :
  l ≡ₚ map_to_list (items ig) ->
  retryGroup c group now l ig = (ig, None)
  \/ (retryableOf c l ig <> []
      /\ retryGroup c group now l ig
         = ({| items := items ig;
               attempts := (collectRetry (MaxRetry c) l (attempts ig) []).1;
               lastSent := now |},
            Some {| kind := RetryTask; tgroup := group;
                    batch := retryableOf c l ig |})).
Proof.
  intros Hl.
  destruct (decide (items ig = ∅)) as [Hempty|Hitems].
  { left. unfold retryGroup. by rewrite Hempty, map_size_empty. }
  destruct (decide (lastSent ig = 0)) as [Hnever|Hever].
  { left. unfold retryGroup. rewrite Hnever.
    by destruct (Z.of_nat (size (items ig)) =? 0). }
  destruct (Z.lt_ge_cases (Int64.sub now (lastSent ig)) (RetryAfter c))
    as [Hearly|Hdue].
  { left. unfold retryGroup.
    assert ((Int64.sub now (lastSent ig) <? RetryAfter c) = true) as -> by lia.
    by destruct (Z.of_nat (size (items ig)) =? 0), (lastSent ig =? 0). }
  rewrite (retryGroup_proceeds c group now l ig Hl Hitems Hever Hdue).
  destruct (decide (retryableOf c l ig = [])); [by left|by right].
Qed.

Lemma dispatch_visit_counters c k now now2 l ig ig' t :
  keyed ig -> bounded (MaxRetry c) ig ->
  l ≡ₚ map_to_list (items ig) ->
  dispatchGroup c k now now2 l ig = Ok (ig', t) ->
  items ig' = items ig
  /\ bounded (MaxRetry c) ig'
  /\ forall key, getAttempt (attempts ig) key <= getAttempt (attempts ig') key.
Proof.
  intros Hkeyed Hb Hl Hres.
  apply dispatchGroup_result in Hres as [[-> ->]|(b & Hsub & -> & ->)].
  { split; [done|]. split; [done|]. intros; lia. }
  cbn [items attempts].
  assert (NoDup (Key <$> b)) as Hnd.
  { eapply sublist_NoDup; [by apply unsent_keys_NoDup|].
    by apply fmap_sublist. }
  assert (forall key, key ∈ Key <$> b ->
            getAttempt (attempts ig) key = 0
            /\ getAttempt (markSent (attempts ig) b) key = 1) as Hin.
  { intros key Hkey. rewrite markSent_getAttempt_in by done.
    apply (list_elem_of_fmap_1 Key) in Hkey as (it & -> & Hit).
    assert (it ∈ collectUnsent (attempts ig) l) as Hit'
      by (eapply sublist_subseteq; eauto).
    destruct (unsent_elem ig l it Hkeyed Hl Hit') as [_ ->]. done. }
  split; [done|]. split.
  - intros key a Hkey. cbn [attempts] in Hkey.
    destruct (decide (key ∈ Key <$> b)) as [Hk|Hk].
    + destruct (Hin key Hk) as [_ Hone].
      rewrite (getAttempt_lookup _ _ _ Hkey) in Hone. lia.
    + rewrite markSent_lookup_notin in Hkey by done. by eapply Hb.
  - intros key. destruct (decide (key ∈ Key <$> b)) as [Hk|Hk].
    + destruct (Hin key Hk) as [-> ->]. lia.
    + unfold getAttempt. rewrite markSent_lookup_notin by done. lia.
Qed.

Lemma retry_visit_counters c group now l ig :
  Int64.in_range (MaxRetry c) -> bounded (MaxRetry c) ig ->
  l ≡ₚ map_to_list (items ig) ->
  items (retryGroup c group now l ig).1 = items ig
  /\ bounded (MaxRetry c) (retryGroup c group now l ig).1
  /\ forall key, getAttempt (attempts ig) key
                 <= getAttempt (attempts (retryGroup c group now l ig).1) key.
Proof.
  intros Hmax Hb Hl.
  destruct (retryGroup_result c group now l ig Hl) as [->|[_ ->]].
  { cbn [fst]. split; [done|]. split; [done|]. intros; lia. }
  cbn [fst items attempts].
  assert (forall key,
            (key ∈ l.*1 /\ getAttempt (attempts ig) key < MaxRetry c
             /\ (collectRetry (MaxRetry c) l (attempts ig) []).1 !! key
                = Some (getAttempt (attempts ig) key + 1))
            \/ (collectRetry (MaxRetry c) l (attempts ig) []).1 !! key
               = attempts ig !! key) as Hcases.
  { intros key.
    destruct (decide (key ∈ l.*1)) as [Hin|Hnotin];
      [|right; apply collectRetry_fst_other; by left].
    destruct (Z.lt_ge_cases (getAttempt (attempts ig) key) (MaxRetry c))
      as [Hlt|Hge]; [left|right; apply collectRetry_fst_other; right; lia].
    split; [done|]. split; [done|].
    rewrite collectRetry_fst_in; try done; [|by eapply range_NoDup].
    f_equal. eapply Int64Facts.add_one_exact; [|exact Hmax|exact Hlt].
    pose proof (bounded_getAttempt _ _ key Hb).
    unfold Int64.in_range, Int64.min_int, Int64.max_int in *. lia. }
  split; [done|]. split.
  - intros key a Hkey. cbn [attempts] in Hkey.
    destruct (Hcases key) as [(_ & Hlt & Hnew)|Hsame].
    + rewrite Hkey in Hnew. injection Hnew as ->.
      pose proof (bounded_getAttempt _ _ key Hb). lia.
    + rewrite Hsame in Hkey. by eapply Hb.
  - intros key. destruct (Hcases key) as [(_ & _ & Hnew)|Hsame].
    + rewrite (getAttempt_lookup _ _ _ Hnew). lia.
    + unfold getAttempt. rewrite Hsame. lia.
Qed.

(** *** Steps *)

Lemma Add_lookup e item g :
  cache (Add e item) !! g
  = if decide (g = Group item)
    then Some {| items := <[Key item := item]>
                            (items (default emptyGroup (cache e !! Group item)));
                 attempts := attempts (default emptyGroup (cache e !! Group item));
                 lastSent := lastSent (default emptyGroup (cache e !! Group item)) |}
    else cache e !! g.
Proof.
  unfold Add, LoadOrStore.
  destruct (cache e !! Group item) as [ig0|] eqn:Hg; simpl;
    destruct (decide (g = Group item)) as [->|Hne].
  - by rewrite lookup_insert_eq.
  - by rewrite lookup_insert_ne.
  - by rewrite lookup_insert_eq.
  - by rewrite !lookup_insert_ne.
Qed.

Lemma Ack_lookup e group keys g :
  cache (Ack e group keys) !! g
  = if decide (g = group)
    then (fun ig => foldl ackKey ig keys) <$> cache e !! group
    else cache e !! g.
Proof.
  unfold Ack. destruct (cache e !! group) as [ig|] eqn:Hg;
    destruct (decide (g = group)) as [->|Hne]; simpl.
  - by rewrite lookup_insert_eq.
  - by rewrite lookup_insert_ne.
  - by rewrite Hg.
  - done.
Qed.

Lemma storeGroup_lookup e k ig g :
  cache (storeGroup e k ig) !! g
  = if decide (g = k) then Some ig else cache e !! g.
Proof.
  unfold storeGroup. simpl. destruct (decide (g = k)) as [->|Hne].
  - by rewrite lookup_insert_eq.
  - by rewrite lookup_insert_ne.
Qed.

Lemma step_cfg e e' : step e e' -> cfg e' = cfg e.
Proof.
  destruct 1; try done.
  - unfold Add. by destruct (LoadOrStore _ _ _).
  - unfold Ack. by destruct (cache e !! group).
Qed.

Lemma keyed_emptyGroup : keyed (emptyGroup (Item := Item)).
Proof. intros k it Hk. simpl in Hk. by rewrite lookup_empty in Hk. Qed.

Lemma bounded_emptyGroup M : bounded M (emptyGroup (Item := Item)).
Proof. intros k a Hk. simpl in Hk. by rewrite lookup_empty in Hk. Qed.

Lemma Inv_NewEngine c : Int64.in_range (MaxRetry c) -> Inv (NewEngine c).
Proof.
  intros Hmax. split; [done|]. intros g ig Hg. simpl in Hg.
  by rewrite lookup_empty in Hg.
Qed.

(** Every step keeps the invariant. *)
Lemma Inv_step e e' : Inv e -> step e e' -> Inv e'.
Proof.
  intros [Hmax Hinv] Hstep. pose proof (step_cfg _ _ Hstep) as Hcfg.
  split; [by rewrite Hcfg|]. rewrite Hcfg.
  destruct Hstep as [e item|e group keys|e k ig now now2 l ig' t Hk Hl Hres
                    |e k ig now l ig' t Hk Hl Hres]; intros g rec.
  - rewrite Add_lookup. destruct (decide (g = Group item)) as [->|Hne];
      [|by apply Hinv].
    intros [= <-].
    assert (keyed (default emptyGroup (cache e !! Group item))
            /\ bounded (MaxRetry (cfg e))
                 (default emptyGroup (cache e !! Group item))) as [Hkd Hbd].
    { destruct (cache e !! Group item) as [ig0|] eqn:Hg; simpl.
      - by apply (Hinv _ _ Hg).
      - split; [apply keyed_emptyGroup|apply bounded_emptyGroup]. }
    split; [|done]. intros k it. cbn [items].
    destruct (decide (k = Key item)) as [->|Hk].
    + rewrite lookup_insert_eq. by intros [= <-].
    + rewrite lookup_insert_ne by done. apply Hkd.
  - rewrite Ack_lookup. destruct (decide (g = group)) as [->|Hne];
      [|by apply Hinv].
    destruct (cache e !! group) as [ig|] eqn:Hg; [|done].
    intros [= <-]. destruct (Hinv _ _ Hg) as [Hkd Hbd]. split.
    + intros k it. rewrite ackKeys_items. case_decide; [done|apply Hkd].
    + intros k a. rewrite ackKeys_attempts. case_decide; [done|apply Hbd].
  - rewrite storeGroup_lookup. destruct (decide (g = k)) as [->|Hne];
      [|by apply Hinv].
    intros [= <-]. destruct (Hinv _ _ Hk) as [Hkd Hbd].
    destruct (dispatch_visit_counters _ _ _ _ _ _ _ _ Hkd Hbd Hl Hres)
      as (Hitems & Hbd' & _).
    split; [|done]. intros key it. rewrite Hitems. apply Hkd.
  - rewrite storeGroup_lookup. destruct (decide (g = k)) as [->|Hne];
      [|by apply Hinv].
    intros [= <-]. destruct (Hinv _ _ Hk) as [Hkd Hbd].
    destruct (retry_visit_counters (cfg e) k now l ig Hmax Hbd Hl)
      as (Hitems & Hbd' & _).
    rewrite Hres in Hitems, Hbd'. simpl in Hitems, Hbd'.
    split; [|done]. intros key it. rewrite Hitems. apply Hkd.
Qed.

(** The counter of a key that is still stored after a step did not
    decrease. *)
Lemma step_attempt_mono e e' group key :
  Inv e -> step e e' -> present e' group key ->
  attemptOf e group key <= attemptOf e' group key.
Proof.
  intros [Hmax Hinv] Hstep (rec & Hrec & Hstored). unfold attemptOf.
  rewrite Hrec.
  destruct Hstep as [e item|e g keys|e k ig now now2 l ig' t Hk Hl Hres
                    |e k ig now l ig' t Hk Hl Hres].
  - rewrite Add_lookup in Hrec.
    destruct (decide (group = Group item)) as [->|Hne].
    + injection Hrec as <-. cbn [attempts].
      destruct (cache e !! Group item); simpl; [lia|].
      unfold getAttempt. rewrite lookup_empty. simpl. lia.
    + rewrite Hrec. lia.
  - rewrite Ack_lookup in Hrec. destruct (decide (group = g)) as [->|Hne].
    + destruct (cache e !! g) as [ig|] eqn:Hg; [|done].
      injection Hrec as <-. rewrite ackKeys_items in Hstored.
      unfold getAttempt. rewrite ackKeys_attempts.
      destruct (decide (key ∈ keys)); [by destruct Hstored|lia].
    + rewrite Hrec. lia.
  - rewrite storeGroup_lookup in Hrec.
    destruct (decide (group = k)) as [->|Hne]; [|rewrite Hrec; lia].
    injection Hrec as <-. rewrite Hk. destruct (Hinv _ _ Hk) as [Hkd Hbd].
    by destruct (dispatch_visit_counters _ _ _ _ _ _ _ _ Hkd Hbd Hl Hres)
      as (_ & _ & Hmono).
  - rewrite storeGroup_lookup in Hrec.
    destruct (decide (group = k)) as [->|Hne]; [|rewrite Hrec; lia].
    injection Hrec as <-. rewrite Hk. destruct (Hinv _ _ Hk) as [Hkd Hbd].
    destruct (retry_visit_counters (cfg e) k now l ig Hmax Hbd Hl)
      as (_ & _ & Hmono).
    rewrite Hres in Hmono. apply Hmono.
Qed.

Lemma Inv_attemptOf e group key :
  Inv e -> 0 <= attemptOf e group key <= Z.max 1 (MaxRetry (cfg e)).
Proof.
  intros [_ Hinv]. unfold attemptOf.
  destruct (cache e !! group) as [ig|] eqn:Hg; [|lia].
  apply bounded_getAttempt. by apply (Hinv _ _ Hg).
Qed.

Lemma keeps_Inv group key e1 e2 :
  Inv e1 -> keeps group key e1 e2 ->
  Inv e2 /\ cfg e2 = cfg e1
  /\ attemptOf e1 group key <= attemptOf e2 group key.
Proof.
  intros Hinv. induction 1 as [e|e1 e2 e3 _ IH Hstep Hpresent].
  - split; [done|]. split; [done|lia].
  - destruct (IH Hinv) as (Hinv2 & Hcfg & Hmono).
    split; [by eapply Inv_step|].
    split; [by rewrite (step_cfg _ _ Hstep)|].
    pose proof (step_attempt_mono _ _ group key Hinv2 Hstep Hpresent). lia.
Qed.

(** An item whose counter has reached [MaxRetry] is passed over by the
    retry visit. *)
Lemma retry_passes_over_exhausted c group now l ig key it :
  keyed ig -> l ≡ₚ map_to_list (items ig) ->
  items ig !! key = Some it ->
  MaxRetry c <= getAttempt (attempts ig) key ->
  ~ it ∈ dispatched (retryGroup c group now l ig).2
  /\ attempts (retryGroup c group now l ig).1 !! key = attempts ig !! key.
Proof.
  intros Hkd Hl Hit Hfull.
  destruct (retryGroup_result c group now l ig Hl) as [->|[_ ->]]; simpl.
  { split; [apply not_elem_of_nil|done]. }
  split.
  - unfold retryableOf.
    intros ([k' it'] & Heq & [Hlt Hin]%list_elem_of_filter)%list_elem_of_fmap.
    simpl in Heq, Hlt. subst it'.
    apply (range_elem _ _ _ _ Hl) in Hin.
    rewrite <- (Hkd _ _ Hin), (Hkd _ _ Hit) in Hlt. lia.
  - apply collectRetry_fst_other. right. lia.
Qed.

(** C3, as the code has it.  Along every run from a state that satisfies
    the engine's invariant (the state [NewEngine] returns does), made of
    [Add], [Ack], dispatch visits and retry visits in any order, the
    attempt count of a key does not decrease while the key stays stored,
    and it never exceeds [max 1 MaxRetry]: the dispatch visit sets the
    counter of an unsent item to 1 without looking at [MaxRetry], so the
    bound is [MaxRetry] itself exactly when [MaxRetry] is at least 1.  A
    stored item whose counter has reached [MaxRetry] is in no retry batch
    and a retry visit leaves its counter alone. *)
Theorem attempts_monotone_bounded e1 e2 group key :
  Inv e1 ->
  keeps group key e1 e2 ->
  attemptOf e1 group key <= attemptOf e2 group key
  /\ attemptOf e2 group key <= Z.max 1 (MaxRetry (cfg e2))
  /\ (1 <= MaxRetry (cfg e2) -> attemptOf e2 group key <= MaxRetry (cfg e2))
  /\ (forall g ig now l k it,
        cache e2 !! g = Some ig ->
        l ≡ₚ map_to_list (items ig) ->
        items ig !! k = Some it ->
        MaxRetry (cfg e2) <= getAttempt (attempts ig) k ->
        ~ it ∈ dispatched (retryGroup (cfg e2) g now l ig).2
        /\ attempts (retryGroup (cfg e2) g now l ig).1 !! k
           = attempts ig !! k).
Proof.
  intros Hinv Hrun.
  destruct (keeps_Inv _ _ _ _ Hinv Hrun) as (Hinv2 & _ & Hmono).
  pose proof (Inv_attemptOf e2 group key Hinv2) as Hbound.
  split; [done|]. split; [lia|]. split; [lia|].
  intros g ig now l k it Hg Hl Hit Hfull.
  destruct Hinv2 as [_ Hrecs]. destruct (Hrecs _ _ Hg) as [Hkd _].
  by apply retry_passes_over_exhausted.
Qed.

End Runs.

(** ** The properties at concrete engines *)

Module Examples.

Import ExampleTest Scenario.


Lemma oneAdded_lookup c : cache (oneAdded c) !! "JP101" = Some neverSent.
Proof. vm_compute. reflexivity. Qed.


Lemma first_dispatch c :
  BatchSize c = 20 -> FlushAfter c = 1000000000 ->
  dispatchGroup c "JP101" t0 t0 (rangeOf neverSent) neverSent
  = Ok (sentOnce, Some firstTask).
Proof.
  intros Hb Hf. unfold dispatchGroup, shouldFlush. rewrite Hb, Hf.
  vm_compute. reflexivity.
Qed.

Lemma first_retry c t :
  MaxRetry c = 3 -> RetryAfter c = 10000000000 ->
  t = t0 + 10000000000 ->
  retryGroup c "JP101" t (rangeOf sentOnce) sentOnce
  = (retriedAt t, Some retryTask).
Proof.
  intros Hm Hr ->. unfold retryGroup. rewrite Hm, Hr.
  vm_compute. reflexivity.
Qed.

Lemma in_range_small z : -1000 <= z <= 1000 -> Int64.in_range z.
Proof. unfold Int64.in_range, Int64.min_int, Int64.max_int. lia. Qed.

Lemma unix_nano_t0 d : 0 <= d <= 100 * year -> Int64.unix_nano (t0 + d).
Proof. unfold Int64.unix_nano, Int64.max_int, t0, year. lia. Qed.


Lemma Inv_Add (e : SyncEngine MyItem) item : Inv e -> Inv (Add e item).
Proof. intros Hinv. eapply Inv_step; [exact Hinv|apply step_Add]. Qed.

Lemma Inv_oneAdded c : Int64.in_range (MaxRetry c) -> Inv (oneAdded c).
Proof. intros Hmax. by apply Inv_Add, Inv_NewEngine. Qed.

Lemma Inv_threeAdded c : Int64.in_range (MaxRetry c) -> Inv (threeAdded c).
Proof. intros Hmax. by do 3 apply Inv_Add; apply Inv_NewEngine. Qed.

Lemma keyed_groupOf e g : Inv e -> keyed (groupOf e g).
Proof.
  intros [_ Hrecs]. unfold groupOf.
  destruct (cache e !! g) as [ig|] eqn:Hg; simpl.
  - by apply (Hrecs _ _ Hg).
  - apply keyed_emptyGroup.
Qed.

Lemma typedGroup_sentOnce : typedGroup sentOnce.
Proof.
  intros k a Hk. cbn [sentOnce attempts] in Hk.
  apply lookup_singleton_Some in Hk as [_ <-]. apply in_range_small. lia.
Qed.

Lemma three_unsent :
  len (collectUnsent (attempts (groupOf (threeAdded batchesOfTwo) "JP101"))
         (rangeOf (groupOf (threeAdded batchesOfTwo) "JP101"))) = 3.
Proof. vm_compute. reflexivity. Qed.

(** *** C1 *)

(** Three unsent orders and [BatchSize = 2]: the visit submits two. *)
Lemma dispatch_cuts_full_batch_witness :
  exists ig' t,
    dispatchGroup batchesOfTwo "JP101" t0 t0
      (rangeOf (groupOf (threeAdded batchesOfTwo) "JP101"))
      (groupOf (threeAdded batchesOfTwo) "JP101") = Ok (ig', t)
    /\ len (dispatched t) = 2.
Proof.
  destruct (dispatch_cuts_full_batch batchesOfTwo "JP101" t0 t0
              (rangeOf (groupOf (threeAdded batchesOfTwo) "JP101"))
              (groupOf (threeAdded batchesOfTwo) "JP101"))
    as (ig' & t & Hres & _ & _ & Hlen & _).
  - apply keyed_groupOf, Inv_threeAdded, in_range_small. simpl. lia.
  - reflexivity.
  - rewrite three_unsent. simpl. lia.
  - exists ig', t. split; [exact Hres|exact Hlen].
Defined.

(** *** C2 *)

(** C2, counterexample.  A retry visit exactly [RetryAfter] after the last
    dispatch: the specification's guard ("has not yet exceeded [RetryAfter]") holds, and
    the code retries. *)
Lemma retry_at_RetryAfter_not_skipped :
  specSkipsRetry logging (t0 + 10000000000) sentOnce
  /\ retryGroup logging "JP101" (t0 + 10000000000) (rangeOf sentOnce) sentOnce
     = (retriedAt (t0 + 10000000000), Some retryTask)
  /\ ~ specRetrySkip (Item := MyItem).
Proof.
  assert (specSkipsRetry logging (t0 + 10000000000) sentOnce) as Hskip.
  { right. right. simpl. lia. }
  pose proof (first_retry logging (t0 + 10000000000) eq_refl eq_refl eq_refl)
    as Hretry.
  split; [done|]. split; [done|]. intros Hspec.
  specialize (Hspec logging "JP101" (t0 + 10000000000) (rangeOf sentOnce)
                sentOnce).
  rewrite Hretry in Hspec.
  assert ((retriedAt (t0 + 10000000000), Some retryTask)
          = (sentOnce, None)) as Habs; [|discriminate Habs].
  apply Hspec; [reflexivity|apply unix_nano_t0|apply (unix_nano_t0 0)|done];
    unfold year; lia.
Qed.

Lemma retry_visit_witness :
  ~ retrySkips logging (t0 + 10000000000) sentOnce
  /\ exists ig' t,
       retryGroup logging "JP101" (t0 + 10000000000) (rangeOf sentOnce)
         sentOnce = (ig', t)
       /\ attempts ig' !! "ORD_000" = Some 2
       /\ lastSent ig' = t0 + 10000000000.
Proof.
  assert (~ retrySkips logging (t0 + 10000000000) sentOnce) as Hgo.
  { intros [Hempty|[Hnever|Hearly]].
    - apply (f_equal (fun m => m !! "ORD_000")) in Hempty.
      vm_compute in Hempty. discriminate Hempty.
    - vm_compute in Hnever. discriminate Hnever.
    - simpl in Hearly. lia. }
  split; [exact Hgo|].
  destruct (retry_visit logging "JP101" (t0 + 10000000000)
              (rangeOf sentOnce) sentOnce) as [_ Hvisit].
  - reflexivity.
  - apply unix_nano_t0. unfold year. lia.
  - apply (unix_nano_t0 0). unfold year. lia.
  - apply typedGroup_sentOnce.
  - apply in_range_small. simpl. lia.
  - destruct (Hvisit Hgo) as (ig' & t & Hres & _ & Hinc & _ & Hsome & _).
    exists ig', t. split; [exact Hres|]. split.
    + apply (Hinc "ORD_000"); [by eexists|]. vm_compute. reflexivity.
    + apply Hsome. vm_compute. discriminate.
Defined.

(** *** C3 *)

Lemma dispatch_step c :
  BatchSize c = 20 -> FlushAfter c = 1000000000 ->
  step (oneAdded c) (storeGroup (oneAdded c) "JP101" sentOnce).
Proof.
  intros Hb Hf.
  apply (step_dispatch (oneAdded c) "JP101" neverSent t0 t0
           (rangeOf neverSent) sentOnce (Some firstTask)).
  - apply oneAdded_lookup.
  - reflexivity.
  - by apply first_dispatch.
Qed.

Lemma present_sentOnce c :
  present (storeGroup (oneAdded c) "JP101" sentOnce) "JP101" "ORD_000".
Proof. exists sentOnce. split; [|eexists]; vm_compute; reflexivity. Qed.

(** C3, counterexample.  With [MaxRetry = 0] the first dispatch brings the
    counter of the order to 1, above [MaxRetry]. *)
Lemma first_dispatch_exceeds_zero_MaxRetry :
  rtc step (NewEngine noRetry) (storeGroup (oneAdded noRetry) "JP101" sentOnce)
  /\ MaxRetry (cfg (storeGroup (oneAdded noRetry) "JP101" sentOnce)) = 0
  /\ attemptOf (storeGroup (oneAdded noRetry) "JP101" sentOnce)
       "JP101" "ORD_000" = 1
  /\ ~ specAttemptsBounded (Item := MyItem).
Proof.
  assert (rtc step (NewEngine noRetry)
            (storeGroup (oneAdded noRetry) "JP101" sentOnce)) as Hrun.
  { eapply rtc_l; [apply step_Add|].
    eapply rtc_l; [by apply dispatch_step|]. apply rtc_refl. }
  split; [exact Hrun|]. split; [reflexivity|]. split; [reflexivity|].
  intros Hspec.
  specialize (Hspec (storeGroup (oneAdded noRetry) "JP101" sentOnce)
                "JP101" "ORD_000" Hrun).
  vm_compute in Hspec. by apply Hspec.
Qed.

Lemma attempts_monotone_bounded_witness :
  attemptOf (oneAdded logging) "JP101" "ORD_000"
  <= attemptOf (storeGroup (oneAdded logging) "JP101" sentOnce)
       "JP101" "ORD_000"
  <= 3.
Proof.
  destruct (attempts_monotone_bounded (oneAdded logging)
              (storeGroup (oneAdded logging) "JP101" sentOnce)
              "JP101" "ORD_000") as (Hmono & _ & Hbound & _).
  - apply Inv_oneAdded, in_range_small. simpl. lia.
  - eapply keeps_step.
    + apply keeps_refl. exists neverSent.
      split; [apply oneAdded_lookup|]. eexists. vm_compute. reflexivity.
    + by apply dispatch_step.
    + apply present_sentOnce.
  - split; [exact Hmono|]. apply Hbound.
    vm_compute. intros Habs. discriminate Habs.
Defined.

(** *** C4 *)

(** C4.  The engine calls [e.cfg.Logger] without testing it for nil,
    although [Config] documents the field as optional.  With no logger,
    the task the first dispatch submits panics on its first statement,
    [recover] catches that panic, the deferred function calls the nil
    logger again, and this second panic leaves the task; the callback is
    never called.  The task of a retry visit ends the same way. *)
Theorem nil_logger_panic_leaves_task :
  Logger noLogger = None
  /\ dispatchGroup noLogger "JP101" t0 t0 (rangeOf neverSent) neverSent
     = Ok (sentOnce, Some firstTask)
  /\ runTask noLogger firstTask = ([], Panicked NilFuncCall)
  /\ retryGroup noLogger "JP101" (t0 + 10000000000) (rangeOf sentOnce)
       sentOnce
     = (retriedAt (t0 + 10000000000), Some retryTask)
  /\ runTask noLogger retryTask = ([], Panicked NilFuncCall).
Proof.
  split; [reflexivity|]. split; [by apply first_dispatch|].
  split; [reflexivity|]. split; [by apply first_retry|reflexivity].
Qed.

(** *** C5 *)

Lemma callback_panic_recovered_witness :
  runTask (withOnDispatch (Some sendPanics) logging) firstTask
  = ([Logged "start dispatch..." [];
      Dispatched "JP101" [order "ORD_000"];
      Logged warnFormat [UserPanic "boom"]], Returned)
  /\ runTask (withOnDispatch None logging) firstTask
     = ([Logged "start dispatch..." []; Logged warnFormat [NilFuncCall]],
        Returned)
  /\ (runTasks (withOnDispatch (Some sendPanics) logging)
        [firstTask; retryTask]).2 = Returned.
Proof.
  destruct (callback_panic_recovered (withOnDispatch (Some sendPanics) logging)
              quietLogger eq_refl (fun _ _ => eq_refl))
    as (Hpanic & _ & Hall).
  destruct (callback_panic_recovered (withOnDispatch None logging)
              quietLogger eq_refl (fun _ _ => eq_refl))
    as (_ & Hnil & _).
  split; [reflexivity|]. split; [exact (Hnil eq_refl firstTask)|].
  exact (proj1 (Hall [firstTask; retryTask])).
Defined.

(** *** C6 *)

Lemma Ack_idempotent_witness :
  Ack (Ack (threeAdded logging) "JP101" ["ORD_000"; "ORD_002"])
    "JP101" ["ORD_000"; "ORD_002"]
  = Ack (threeAdded logging) "JP101" ["ORD_000"; "ORD_002"]
  /\ Ack (threeAdded logging) "TW202" ["ORD_000"] = threeAdded logging.
Proof.
  split.
  - exact (proj1 (Ack_idempotent (threeAdded logging) "JP101"
                    ["ORD_000"; "ORD_002"])).
  - apply (proj2 (Ack_idempotent (threeAdded logging) "TW202" ["ORD_000"])).
    vm_compute. reflexivity.
Defined.

(** *** C7 *)

Lemma Add_existing_key_frame_witness :
  exists ig',
    cache (Add (storeGroup (oneAdded logging) "JP101" sentOnce) revised)
      !! "JP101" = Some ig'
    /\ items ig' !! "ORD_000" = Some revised
    /\ attempts ig' = attempts sentOnce
    /\ lastSent ig' = t0.
Proof.
  destruct (Add_existing_key_frame
              (storeGroup (oneAdded logging) "JP101" sentOnce) revised
              sentOnce (order "ORD_000"))
    as (ig' & Hg & Hitem & _ & Hatt & Hsent & _).
  - vm_compute. reflexivity.
  - vm_compute. reflexivity.
  - exists ig'. split; [exact Hg|]. split; [exact Hitem|].
    split; [exact Hatt|exact Hsent].
Defined.

(** *** C8 *)

(** C8, counterexample.  A record that was never sent, one unsent order,
    [BatchSize = 20] and a flush deadline of a hundred years: at a tick in 2026 the flush
    condition is false and the visit submits nothing. *)
Lemma never_sent_not_flushed :
  lastSent neverSent = 0
  /\ collectUnsent (attempts neverSent) (rangeOf neverSent)
     = [order "ORD_000"]
  /\ shouldFlush patient t0 neverSent
       (collectUnsent (attempts neverSent) (rangeOf neverSent)) = false
  /\ dispatchGroup patient "JP101" t0 t0 (rangeOf neverSent) neverSent
     = Ok (neverSent, None)
  /\ ~ specNeverSentFlushes (Item := MyItem).
Proof.
  split; [reflexivity|]. split; [vm_compute; reflexivity|].
  assert (shouldFlush patient t0 neverSent
            (collectUnsent (attempts neverSent) (rangeOf neverSent)) = false)
    as Hno by (vm_compute; reflexivity).
  split; [exact Hno|]. split; [vm_compute; reflexivity|].
  intros Hspec.
  specialize (Hspec patient t0 neverSent (rangeOf neverSent)).
  rewrite Hno in Hspec.
  assert (false = true) as Habs; [|discriminate Habs].
  apply Hspec.
  - reflexivity.
  - apply (unix_nano_t0 0). unfold year. lia.
  - reflexivity.
  - vm_compute. discriminate.
Qed.

Lemma never_sent_flushes_witness :
  shouldFlush logging t0 neverSent
    (collectUnsent (attempts neverSent) (rangeOf neverSent)) = true
  /\ exists ig' t,
       dispatchGroup logging "JP101" t0 t0 (rangeOf neverSent) neverSent
       = Ok (ig', Some t)
       /\ len (batch t) = 1.
Proof.
  destruct (never_sent_flushes logging "JP101" t0 t0 (rangeOf neverSent)
              neverSent) as [Hflush Hvisit].
  - apply (unix_nano_t0 0). unfold year. lia.
  - reflexivity.
  - vm_compute. reflexivity.
  - split; [exact Hflush|].
    destruct Hvisit as (ig' & t & Hres & Hlen).
    + vm_compute. discriminate.
    + simpl. lia.
    + exists ig', t. split; [exact Hres|]. rewrite Hlen.
      vm_compute. reflexivity.
Defined.

(** *** C9 *)

(** C9, counterexample.  With [MaxRetry = 0] a record that is due for
    retry and holds an order that was never sent keeps it unsent: the
    visit submits nothing. *)
Lemma zero_MaxRetry_leaves_unsent :
  items sentThenAdded !! "ORD_001" = Some (order "ORD_001")
  /\ getAttempt (attempts sentThenAdded) "ORD_001" = 0
  /\ RetryAfter noRetry < (t0 + 10000000001) - lastSent sentThenAdded
  /\ retryGroup noRetry "JP101" (t0 + 10000000001) (rangeOf sentThenAdded)
       sentThenAdded
     = (sentThenAdded, None)
  /\ ~ specRetrySendsUnsent (Item := MyItem).
Proof.
  split; [vm_compute; reflexivity|]. split; [vm_compute; reflexivity|].
  split; [vm_compute; reflexivity|].
  assert (retryGroup noRetry "JP101" (t0 + 10000000001)
            (rangeOf sentThenAdded) sentThenAdded = (sentThenAdded, None))
    as Hres by (vm_compute; reflexivity).
  split; [exact Hres|]. intros Hspec.
  destruct (Hspec noRetry "JP101" (t0 + 10000000001) (rangeOf sentThenAdded)
              sentThenAdded "ORD_001" (order "ORD_001")) as [Hin _].
  - reflexivity.
  - apply unix_nano_t0. unfold year. lia.
  - apply (unix_nano_t0 0). unfold year. lia.
  - vm_compute. discriminate.
  - vm_compute. reflexivity.
  - vm_compute. reflexivity.
  - vm_compute. reflexivity.
  - rewrite Hres in Hin. simpl in Hin. by apply elem_of_nil in Hin.
Qed.

Lemma retry_sends_unsent_witness :
  order "ORD_001"
    ∈ dispatched (retryGroup logging "JP101" (t0 + 10000000000)
                    (rangeOf sentThenAdded) sentThenAdded).2
  /\ getAttempt
       (attempts (retryGroup logging "JP101" (t0 + 10000000000)
                    (rangeOf sentThenAdded) sentThenAdded).1) "ORD_001" = 1.
Proof.
  destruct (retry_sends_unsent logging "JP101" (t0 + 10000000000)
              (rangeOf sentThenAdded) sentThenAdded "ORD_001"
              (order "ORD_001")) as (Hin & Hone & _).
  - reflexivity.
  - apply unix_nano_t0. unfold year. lia.
  - apply (unix_nano_t0 0). unfold year. lia.
  - vm_compute. discriminate.
  - simpl. lia.
  - simpl. lia.
  - vm_compute. reflexivity.
  - vm_compute. reflexivity.
  - split; [exact Hin|exact Hone].
Defined.

(** *** C10 *)

Lemma Stop_twice_panics_witness :
  exists e',
    Stop (NewEngine logging) = Ok e'
    /\ Stop e' = Panic CloseOfClosedChannel.
Proof. apply (Stop_twice_panics (NewEngine logging)). reflexivity. Defined.

End Examples.

(** * Further properties of the code *)

(** ** [Add] and [Ack] as operations on the store *)

Section Store.

Context {Item : Type} `{SyncItem Item}.

Implicit Types (e : SyncEngine Item) (ig : itemGroup Item).

Lemma SyncEngine_eq e1 e2 :
  cache e1 = cache e2 -> cfg e1 = cfg e2 -> stop e1 = stop e2 -> e1 = e2.
Proof. destruct e1, e2; simpl; intros; by subst. Qed.

Lemma Add_cfg e item : cfg (Add e item) = cfg e.
Proof. unfold Add. by destruct (LoadOrStore _ _ _). Qed.

Lemma Add_stop e item : stop (Add e item) = stop e.
Proof. unfold Add. by destruct (LoadOrStore _ _ _). Qed.

Lemma Ack_cfg e group keys : cfg (Ack e group keys) = cfg e.
Proof. unfold Ack. by destruct (cache e !! group). Qed.

Lemma Ack_stop e group keys : stop (Ack e group keys) = stop e.
Proof. unfold Ack. by destruct (cache e !! group). Qed.

(** The record [Add] works on: the stored one, or a fresh one. *)
Lemma Add_items e item k :
  itemOf (Add e item) (Group item) k
  = if decide (k = Key item) then Some item else itemOf e (Group item) k.
Proof.
  unfold itemOf. rewrite Add_lookup.
  rewrite decide_True by done. simpl.
  destruct (decide (k = Key item)) as [->|Hne].
  - by rewrite lookup_insert_eq.
  - rewrite lookup_insert_ne by done.
    destruct (cache e !! Group item); [done|]. simpl. apply lookup_empty.
Qed.

Lemma Add_attemptOf e item g k :
  attemptOf (Add e item) g k = attemptOf e g k.
Proof.
  unfold attemptOf. rewrite Add_lookup.
  destruct (decide (g = Group item)) as [->|Hne]; [|done]. simpl.
  destruct (cache e !! Group item); [done|]. simpl.
  unfold getAttempt. by rewrite lookup_empty.
Qed.

(** X1.  [Add] stores the item under its key in its group, creating the
    group when the engine does not have it, with no counters and
    [lastSent = 0].  It changes no other stored item, no attempt count
    (the count of the key itself included), and no [lastSent]. *)
Theorem Add_stores_item e item :
  itemOf (Add e item) (Group item) (Key item) = Some item
  /\ (forall g k, g <> Group item \/ k <> Key item ->
        itemOf (Add e item) g k = itemOf e g k)
  /\ (forall g k, attemptOf (Add e item) g k = attemptOf e g k)
  /\ (forall g ig, cache e !! g = Some ig ->
        exists ig', cache (Add e item) !! g = Some ig'
                    /\ lastSent ig' = lastSent ig)
  /\ (cache e !! Group item = None ->
        cache (Add e item) !! Group item
        = Some {| items := {[ Key item := item ]};
                  attempts := ∅; lastSent := 0 |}).
Proof.
  split; [|split; [|split; [|split]]].
  - rewrite Add_items. by rewrite decide_True.
  - intros g k Hother. destruct (decide (g = Group item)) as [->|Hg].
    + rewrite Add_items. destruct Hother as [?|Hk]; [done|].
      by rewrite decide_False.
    + unfold itemOf. rewrite Add_lookup. by rewrite decide_False.
  - apply Add_attemptOf.
  - intros g ig Hg. rewrite Add_lookup.
    destruct (decide (g = Group item)) as [->|Hne]; [|by eexists].
    eexists. split; [reflexivity|]. simpl. by rewrite Hg.
  - intros Hnew. rewrite Add_lookup, decide_True by done. by rewrite Hnew.
Qed.

(** X2.  Two [Add]s with the same group and key: the last one wins, and
    the engine is the one the last [Add] alone would give. *)
Theorem Add_last_write_wins e a b :
  Group a = Group b -> Key a = Key b ->
  Add (Add e a) b = Add e b.
Proof.
  intros Hg Hk. apply SyncEngine_eq.
  - apply map_eq. intros g. rewrite !Add_lookup.
    destruct (decide (g = Group b)) as [->|Hne].
    + rewrite <- Hg. rewrite decide_True by done. simpl.
      rewrite <- Hk. by rewrite insert_insert_eq.
    + rewrite decide_False; [done|]. by rewrite Hg.
  - by rewrite !Add_cfg.
  - by rewrite !Add_stop.
Qed.

(** X3.  [Add]s of items that differ in group or in key commute: the
    engine does not depend on the order in which they arrive. *)
Theorem Add_commute e a b :
  Group a <> Group b \/ Key a <> Key b ->
  Add (Add e a) b = Add (Add e b) a.
Proof.
  intros Hdiff. apply SyncEngine_eq.
  - apply map_eq. intros g. rewrite !Add_lookup.
    destruct (decide (Group a = Group b)) as [Hg|Hg].
    + destruct Hdiff as [?|Hk]; [done|]. rewrite Hg.
      destruct (decide (g = Group b)) as [->|Hne]; [|done].
      rewrite decide_True by done. simpl. f_equal.
      apply itemGroup_eq; simpl; try done. by apply insert_insert_ne.
    + repeat case_decide; simplify_eq; try done.
  - by rewrite !Add_cfg.
  - by rewrite !Add_stop.
Qed.

Lemma ackKeys_same_set ig ks ks' :
  (forall k, k ∈ ks <-> k ∈ ks') -> foldl ackKey ig ks = foldl ackKey ig ks'.
Proof.
  intros Hsame. apply itemGroup_eq.
  - apply map_eq. intros k. rewrite !ackKeys_items.
    destruct (decide (k ∈ ks)) as [Hin|Hin], (decide (k ∈ ks')) as [Hin'|Hin'];
      try done; exfalso; [apply Hin'|apply Hin]; by apply Hsame.
  - apply map_eq. intros k. rewrite !ackKeys_attempts.
    destruct (decide (k ∈ ks)) as [Hin|Hin], (decide (k ∈ ks')) as [Hin'|Hin'];
      try done; exfalso; [apply Hin'|apply Hin]; by apply Hsame.
  - by rewrite !ackKeys_lastSent.
Qed.

(** X4.  After [Ack] every acknowledged key of the group is gone: it has
    no item and its attempt count reads 0.  Keys that are not in the list
    and keys of other groups keep their item and their count, and every
    group stays in the store with its [lastSent], also when [Ack] has
    emptied it. *)
Theorem Ack_removes e group keys :
  (forall k, k ∈ keys ->
     itemOf (Ack e group keys) group k = None
     /\ attemptOf (Ack e group keys) group k = 0)
  /\ (forall g k, g <> group \/ k ∉ keys ->
        itemOf (Ack e group keys) g k = itemOf e g k
        /\ attemptOf (Ack e group keys) g k = attemptOf e g k)
  /\ (forall g ig, cache e !! g = Some ig ->
        exists ig', cache (Ack e group keys) !! g = Some ig'
                    /\ lastSent ig' = lastSent ig).
Proof.
  split; [|split].
  - intros k Hin. unfold itemOf, attemptOf. rewrite Ack_lookup.
    rewrite decide_True by done.
    destruct (cache e !! group) as [ig|]; simpl; [|done].
    unfold getAttempt. rewrite ackKeys_items, ackKeys_attempts.
    by rewrite !decide_True.
  - intros g k Hother. unfold itemOf, attemptOf. rewrite Ack_lookup.
    destruct (decide (g = group)) as [->|Hne]; [|done].
    destruct Hother as [?|Hk]; [done|].
    destruct (cache e !! group) as [ig|]; simpl; [|done].
    unfold getAttempt. rewrite ackKeys_items, ackKeys_attempts.
    by rewrite !decide_False.
  - intros g ig Hg. rewrite Ack_lookup.
    destruct (decide (g = group)) as [->|Hne]; [|by eexists].
    rewrite Hg. simpl. eexists. split; [reflexivity|].
    apply ackKeys_lastSent.
Qed.

(** X5.  [Ack] depends on the set of keys only: order and repetitions in
    the list do not matter. *)
Theorem Ack_key_set e group ks ks' :
  (forall k, k ∈ ks <-> k ∈ ks') ->
  Ack e group ks = Ack e group ks'.
Proof.
  intros Hsame. unfold Ack. destruct (cache e !! group) as [ig|]; [|done].
  by rewrite (ackKeys_same_set ig ks ks' Hsame).
Qed.

(** X6.  Acknowledging nothing changes nothing, and acknowledging two
    lists one after the other is acknowledging their concatenation. *)
Theorem Ack_composes e group ks1 ks2 :
  Ack e group [] = e
  /\ Ack (Ack e group ks1) group ks2 = Ack e group (ks1 ++ ks2).
Proof.
  split.
  - unfold Ack. destruct (cache e !! group) as [ig|] eqn:Hg; [|done].
    apply SyncEngine_eq; simpl; try done. by apply insert_id.
  - unfold Ack at 2 3. destruct (cache e !! group) as [ig|] eqn:Hg.
    + unfold Ack, storeGroup. simpl. rewrite lookup_insert_eq.
      by rewrite insert_insert_eq, foldl_app.
    + unfold Ack. by rewrite Hg.
Qed.

(** X7.  A key that is acknowledged and added again starts over: its
    item is stored and its attempt count is 0, whatever the count was
    before the acknowledgement. *)
Theorem readd_starts_over e keys item :
  Key item ∈ keys ->
  itemOf (Add (Ack e (Group item) keys) item) (Group item) (Key item)
  = Some item
  /\ attemptOf (Add (Ack e (Group item) keys) item) (Group item) (Key item)
     = 0.
Proof.
  intros Hin. split.
  - rewrite Add_items. by rewrite decide_True.
  - rewrite Add_attemptOf. unfold attemptOf. rewrite Ack_lookup.
    rewrite decide_True by done.
    destruct (cache e !! Group item) as [ig|]; simpl; [|done].
    unfold getAttempt. rewrite ackKeys_attempts. by rewrite decide_True.
Qed.

Lemma step_keeps_groups e e' g :
  step e e' -> is_Some (cache e !! g) -> is_Some (cache e' !! g).
Proof.
  intros Hstep [ig Hg].
  destruct Hstep as [e item|e group keys|e k rec now now2 l rec' t Hk Hl Hres
                    |e k rec now l rec' t Hk Hl Hres].
  - rewrite Add_lookup. case_decide; [by eexists|]. by rewrite Hg.
  - rewrite Ack_lookup. case_decide; [|by rewrite Hg].
    subst g. rewrite Hg. by eexists.
  - rewrite storeGroup_lookup. case_decide; [by eexists|]. by rewrite Hg.
  - rewrite storeGroup_lookup. case_decide; [by eexists|]. by rewrite Hg.
Qed.

Lemma step_stop e e' : step e e' -> stop e' = stop e.
Proof.
  destruct 1; try done.
  - apply Add_stop.
  - apply Ack_stop.
Qed.

(** X8.  No step of a running engine removes a group: a group that is in
    the store stays there through every run of [Add], [Ack], dispatch
    visits and retry visits, and no step touches the configuration or the
    stop channel. *)
Theorem groups_never_removed e e' :
  rtc step e e' ->
  (forall g, is_Some (cache e !! g) -> is_Some (cache e' !! g))
  /\ cfg e' = cfg e
  /\ stop e' = stop e.
Proof.
  induction 1 as [e|e1 e2 e3 Hstep _ (IHg & IHc & IHs)]; [done|].
  split; [|split].
  - intros g Hg. by eapply IHg, step_keeps_groups.
  - by rewrite IHc, (step_cfg _ _ Hstep).
  - by rewrite IHs, (step_stop _ _ Hstep).
Qed.

End Store.

(** ** More on the two visits *)

Section MoreVisits.

Context {Item : Type} `{SyncItem Item}.

Implicit Types (c : Config Item) (ig : itemGroup Item)
  (l : list (string * Item)) (att : gmap string Z).

Lemma len_pos {A} (xs : list A) : xs <> [] -> 0 < len xs.
Proof. destruct xs; [done|]. intros _. unfold len. rewrite length_cons. lia. Qed.

Lemma len_nonneg {A} (xs : list A) : 0 <= len xs.
Proof. unfold len. lia. Qed.

Lemma unsent_complete ig l k it :
  (k, it) ∈ l -> getAttempt (attempts ig) k = 0 ->
  it ∈ collectUnsent (attempts ig) l.
Proof.
  intros Hin Hzero. rewrite collectUnsent_filter.
  apply list_elem_of_fmap. exists (k, it). split; [done|].
  by apply list_elem_of_filter.
Qed.

Lemma collectUnsent_nil att l :
  (forall k it, (k, it) ∈ l -> getAttempt att k <> 0) ->
  collectUnsent att l = [].
Proof.
  induction l as [|[k it] l IH]; intros Hall; [done|].
  cbn [collectUnsent].
  destruct (Z.eqb_spec (getAttempt att k) 0) as [Hzero|_].
  - exfalso. apply (Hall k it); [by left|done].
  - apply IH. intros k' it' Hin. apply (Hall k' it'). by right.
Qed.

(** Everything a dispatch visit that returns does, whatever made it
    flush. *)
Lemma dispatch_visit_batch c k now now2 l ig ig' t :
  keyed ig -> l ≡ₚ map_to_list (items ig) ->
  dispatchGroup c k now now2 l ig = Ok (ig', t) ->
  items ig' = items ig
  /\ NoDup (Key <$> dispatched t)
  /\ (forall it, it ∈ dispatched t ->
        it ∈ collectUnsent (attempts ig) l
        /\ items ig !! Key it = Some it
        /\ getAttempt (attempts ig) (Key it) = 0)
  /\ (forall key, key ∈ Key <$> dispatched t ->
        getAttempt (attempts ig') key = 1)
  /\ (forall key, key ∉ Key <$> dispatched t ->
        attempts ig' !! key = attempts ig !! key)
  /\ (t = None -> ig' = ig)
  /\ (forall tk, t = Some tk ->
        kind tk = DispatchTask /\ tgroup tk = k
        /\ lastSent ig' = now2
        /\ batch tk = take (Z.to_nat (BatchSize c))
                        (collectUnsent (attempts ig) l)
        /\ 0 <= BatchSize c
        /\ collectUnsent (attempts ig) l <> []).
Proof.
  intros Hkeyed Hl Hres.
  pose proof (unsent_keys_NoDup ig l Hkeyed Hl) as Hnd.
  pose proof (fun it => unsent_elem ig l it Hkeyed Hl) as Helem.
  unfold dispatchGroup, slice_to in Hres.
  set (unsent := collectUnsent (attempts ig) l) in *.
  destruct (Z.ltb_spec 0 (len unsent)) as [Hpos|Hempty];
    cbn [andb] in Hres.
  2:{ injection Hres as <- <-. cbn [dispatched from_option].
      split; [done|]. split; [constructor|].
      split; [by intros it ?%elem_of_nil|].
      split; [by intros key ?%elem_of_nil|]. done. }
  destruct (shouldFlush c now ig unsent).
  2:{ injection Hres as <- <-. cbn [dispatched from_option].
      split; [done|]. split; [constructor|].
      split; [by intros it ?%elem_of_nil|].
      split; [by intros key ?%elem_of_nil|]. done. }
  destruct (Z.ltb_spec (Z.min (BatchSize c) (len unsent)) 0) as [Hneg|Hnonneg];
    cbn [orb] in Hres; [done|].
  destruct (Z.ltb_spec (len unsent) (Z.min (BatchSize c) (len unsent)))
    as [Hover|_]; [lia|].
  cbn [mbind result_bind] in Hres. injection Hres as <- <-.
  cbn [dispatched from_option batch items attempts lastSent].
  assert (take (Z.to_nat (Z.min (BatchSize c) (len unsent))) unsent
          = take (Z.to_nat (BatchSize c)) unsent) as ->.
  { destruct (Z.le_ge_cases (BatchSize c) (len unsent)) as [Hle|Hge].
    - by rewrite Z.min_l.
    - rewrite Z.min_r by done. unfold len in *.
      rewrite !take_ge; [done|lia..]. }
  set (b := take (Z.to_nat (BatchSize c)) unsent).
  assert (b `sublist_of` unsent) as Hsub by apply sublist_take.
  assert (NoDup (Key <$> b)) as Hndb.
  { eapply sublist_NoDup; [exact Hnd|]. by apply fmap_sublist. }
  assert (forall it, it ∈ b -> it ∈ unsent) as Hin
    by (intros it ?; eapply sublist_subseteq; eauto).
  split; [done|]. split; [done|]. split.
  { intros it Hit. split; [by apply Hin|]. by apply Helem, Hin. }
  split.
  { intros key Hkey. rewrite markSent_getAttempt_in by done.
    apply (list_elem_of_fmap_1 Key) in Hkey as (it & -> & Hit).
    by rewrite (proj2 (Helem it (Hin it Hit))). }
  split; [intros key Hkey; by apply markSent_lookup_notin|].
  split; [done|]. intros tk [= <-]. simpl.
  repeat split; try done; [lia|].
  intros Hnil. rewrite Hnil in Hpos. unfold len in Hpos. simpl in Hpos. lia.
Qed.

(** X9.  The dispatch visit panics exactly when [BatchSize] is negative
    and the record holds an unsent item: [unsent[:min(BatchSize, len)]]
    is then sliced with a negative bound.  Nothing in the loop recovers
    this panic.  With a [BatchSize] that is not negative, or nothing
    unsent, the visit returns. *)
Theorem dispatch_panics_iff c k now now2 l ig :
  (BatchSize c < 0 /\ collectUnsent (attempts ig) l <> [] ->
   dispatchGroup c k now now2 l ig = Panic SliceBoundsOutOfRange)
  /\ (0 <= BatchSize c \/ collectUnsent (attempts ig) l = [] ->
      exists r, dispatchGroup c k now now2 l ig = Ok r).
Proof.
  unfold dispatchGroup, shouldFlush, slice_to.
  set (unsent := collectUnsent (attempts ig) l).
  split.
  - intros [Hneg Hsome]. pose proof (len_pos unsent Hsome) as Hpos.
    assert ((0 <? len unsent) = true) as -> by lia.
    assert ((BatchSize c <=? len unsent) = true) as -> by lia.
    cbn [andb orb].
    assert ((Z.min (BatchSize c) (len unsent) <? 0) = true) as -> by lia.
    done.
  - intros Hok.
    destruct ((0 <? len unsent)
              && ((BatchSize c <=? len unsent)
                  || (FlushAfter c <? Int64.sub now (lastSent ig)))) eqn:Hgo;
      [|by eexists].
    apply andb_true_iff in Hgo as [Hpos%Z.ltb_lt _].
    destruct Hok as [Hsize|Hnil].
    + assert (((Z.min (BatchSize c) (len unsent) <? 0)
               || (len unsent <? Z.min (BatchSize c) (len unsent))) = false)
        as ->; [|by eexists].
      apply orb_false_iff. split; lia.
    + rewrite Hnil in Hpos. unfold len in Hpos. simpl in Hpos. lia.
Qed.

(** X10.  With [BatchSize = 0] a visit of a record that holds an unsent
    item hands an empty batch to the callback and stores the clock
    reading in [lastSent]; no counter changes, so the item stays unsent. *)
Theorem dispatch_zero_BatchSize c k now now2 l ig :
  BatchSize c = 0 ->
  collectUnsent (attempts ig) l <> [] ->
  dispatchGroup c k now now2 l ig
  = Ok ({| items := items ig; attempts := attempts ig; lastSent := now2 |},
        Some {| kind := DispatchTask; tgroup := k; batch := [] |}).
Proof.
  intros Hzero Hsome. unfold dispatchGroup, shouldFlush, slice_to.
  pose proof (len_pos _ Hsome) as Hpos. rewrite Hzero.
  assert ((0 <? len (collectUnsent (attempts ig) l)) = true) as -> by lia.
  assert ((0 <=? len (collectUnsent (attempts ig) l)) = true) as -> by lia.
  cbn [andb orb]. rewrite Z.min_l by lia.
  assert ((len (collectUnsent (attempts ig) l) <? 0) = false) as -> by lia.
  done.
Qed.

(** X11.  A record with fewer than [BatchSize] unsent items, visited no
    later than [FlushAfter] after its [lastSent], is left as it is and
    nothing is submitted. *)
Theorem dispatch_waits c k now now2 l ig :
  Int64.unix_nano now -> Int64.unix_nano (lastSent ig) ->
  len (collectUnsent (attempts ig) l) < BatchSize c ->
  now - lastSent ig <= FlushAfter c ->
  dispatchGroup c k now now2 l ig = Ok (ig, None).
Proof.
  intros Hnow Hsent Hfew Hearly. unfold dispatchGroup, shouldFlush.
  rewrite (Int64Facts.sub_unix_nano _ _ Hnow Hsent).
  assert ((BatchSize c <=? len (collectUnsent (attempts ig) l)) = false)
    as -> by lia.
  assert ((FlushAfter c <? now - lastSent ig) = false) as -> by lia.
  cbn [orb]. by rewrite andb_false_r.
Qed.

(** X12.  A record with at least one and fewer than [BatchSize] unsent
    items, visited later than [FlushAfter] after its [lastSent], has all
    its unsent items submitted in one batch: afterwards no stored item
    is unsent, in whatever order a later visit ranges over the items. *)
Theorem dispatch_flushes_all c k now now2 l ig :
  keyed ig -> l ≡ₚ map_to_list (items ig) ->
  Int64.unix_nano now -> Int64.unix_nano (lastSent ig) ->
  collectUnsent (attempts ig) l <> [] ->
  len (collectUnsent (attempts ig) l) < BatchSize c ->
  FlushAfter c < now - lastSent ig ->
  exists ig',
    dispatchGroup c k now now2 l ig
    = Ok (ig', Some {| kind := DispatchTask; tgroup := k;
                       batch := collectUnsent (attempts ig) l |})
    /\ forall l', l' ≡ₚ map_to_list (items ig') ->
         collectUnsent (attempts ig') l' = [].
Proof.
  intros Hkeyed Hl Hnow Hsent Hsome Hfew Hlate.
  pose proof (len_pos _ Hsome) as Hpos.
  assert (dispatchGroup c k now now2 l ig
          = Ok ({| items := items ig;
                   attempts := markSent (attempts ig)
                                 (collectUnsent (attempts ig) l);
                   lastSent := now2 |},
                Some {| kind := DispatchTask; tgroup := k;
                        batch := collectUnsent (attempts ig) l |})) as Hres.
  { unfold dispatchGroup, shouldFlush, slice_to.
    rewrite (Int64Facts.sub_unix_nano _ _ Hnow Hsent).
    assert ((0 <? len (collectUnsent (attempts ig) l)) = true) as -> by lia.
    assert ((FlushAfter c <? now - lastSent ig) = true) as -> by lia.
    rewrite orb_true_r. cbn [andb]. rewrite Z.min_r by lia.
    assert ((len (collectUnsent (attempts ig) l) <? 0) = false) as -> by lia.
    rewrite Z.ltb_irrefl. cbn [orb mbind result_bind].
    unfold len. rewrite Nat2Z.id, firstn_all. done. }
  eexists. split; [exact Hres|]. cbn [items attempts].
  intros l' Hl'.
  destruct (dispatch_visit_batch _ _ _ _ _ _ _ _ Hkeyed Hl Hres)
    as (_ & _ & _ & Hone & Hsame & _).
  cbn [dispatched from_option batch attempts] in Hone, Hsame.
  apply collectUnsent_nil. intros k' it' Hin Hzero.
  apply (range_elem _ _ _ _ Hl') in Hin.
  destruct (decide (k' ∈ Key <$> collectUnsent (attempts ig) l))
    as [Hsent'|Hnot].
  - rewrite (Hone _ Hsent') in Hzero. done.
  - apply Hnot. unfold getAttempt in Hzero. rewrite (Hsame _ Hnot) in Hzero.
    rewrite <- (Hkeyed _ _ Hin). apply list_elem_of_fmap_2.
    eapply unsent_complete; [|exact Hzero].
    by apply (range_elem _ _ _ _ Hl).
Qed.

(** X13.  Whatever makes a dispatch visit flush, the batch it submits
    holds only stored items whose attempt count was 0, each at most once,
    and as many of them as [min BatchSize (len unsent)]; the visit sets
    the count of those items to 1 and [lastSent] to the clock reading,
    and changes no other count and no item. *)
Theorem dispatch_batch_sound c k now now2 l ig ig' tk :
  keyed ig -> l ≡ₚ map_to_list (items ig) ->
  dispatchGroup c k now now2 l ig = Ok (ig', Some tk) ->
  len (batch tk) = Z.min (BatchSize c) (len (collectUnsent (attempts ig) l))
  /\ NoDup (Key <$> batch tk)
  /\ (forall it, it ∈ batch tk ->
        items ig !! Key it = Some it
        /\ getAttempt (attempts ig) (Key it) = 0
        /\ getAttempt (attempts ig') (Key it) = 1)
  /\ (forall key, key ∉ Key <$> batch tk ->
        attempts ig' !! key = attempts ig !! key)
  /\ items ig' = items ig
  /\ lastSent ig' = now2.
Proof.
  intros Hkeyed Hl Hres.
  destruct (dispatch_visit_batch _ _ _ _ _ _ _ _ Hkeyed Hl Hres)
    as (Hitems & Hnd & Hin & Hone & Hsame & _ & Htask).
  destruct (Htask tk eq_refl) as (_ & _ & Hsent & Hbatch & Hsize & _).
  cbn [dispatched from_option] in *.
  split.
  { rewrite Hbatch. unfold len. rewrite length_take. lia. }
  split; [done|]. split.
  { intros it Hit. destruct (Hin it Hit) as (_ & Hstored & Hzero).
    split; [done|]. split; [done|]. apply Hone. by apply list_elem_of_fmap_2. }
  done.
Qed.

(** X14.  The dispatch loop does not pick an item twice: the batch of a
    dispatch visit and the batch of the next dispatch visit of the same
    record have no key in common, whatever the clock readings and the
    visiting orders are. *)
Theorem dispatch_not_twice c k now1 now1' l1 now2 now2' l2 ig ig1 ig2 t1 t2 :
  keyed ig ->
  l1 ≡ₚ map_to_list (items ig) ->
  dispatchGroup c k now1 now1' l1 ig = Ok (ig1, t1) ->
  l2 ≡ₚ map_to_list (items ig1) ->
  dispatchGroup c k now2 now2' l2 ig1 = Ok (ig2, t2) ->
  forall key, key ∈ Key <$> dispatched t1 -> key ∉ Key <$> dispatched t2.
Proof.
  intros Hkeyed Hl1 Hres1 Hl2 Hres2 key Hfirst Hsecond.
  destruct (dispatch_visit_batch _ _ _ _ _ _ _ _ Hkeyed Hl1 Hres1)
    as (Hitems & _ & _ & Hone & _).
  assert (keyed ig1) as Hkeyed1.
  { intros k' it'. rewrite Hitems. apply Hkeyed. }
  destruct (dispatch_visit_batch _ _ _ _ _ _ _ _ Hkeyed1 Hl2 Hres2)
    as (_ & _ & Hin & _).
  apply (list_elem_of_fmap_1 Key) in Hsecond as (it & -> & Hit).
  destruct (Hin it Hit) as (_ & _ & Hzero).
  rewrite (Hone _ Hfirst) in Hzero. done.
Qed.

Lemma retryGroup_Some_lastSent c group now l ig ig' tk :
  retryGroup c group now l ig = (ig', Some tk) -> lastSent ig' = now.
Proof.
  unfold retryGroup.
  destruct (Z.of_nat (size (items ig)) =? 0); [done|].
  destruct (lastSent ig =? 0); [done|].
  destruct (Int64.sub now (lastSent ig) <? RetryAfter c); [done|].
  destruct (collectRetry (MaxRetry c) l (attempts ig) []) as [att r].
  destruct (0 <? len r); [|done]. by intros [= <- _].
Qed.

(** X15.  Every batch postpones the retries of its whole group: after a
    dispatch visit or a retry visit that submitted a batch at clock
    reading [sent], a retry visit of the record earlier than [RetryAfter]
    after [sent] leaves the record as it is and submits nothing. *)
Theorem retry_waits_after_batch c k now sent l ig ig' tk now' l' :
  dispatchGroup c k now sent l ig = Ok (ig', Some tk)
  \/ retryGroup c k sent l ig = (ig', Some tk) ->
  Int64.unix_nano sent -> Int64.unix_nano now' ->
  now' - sent < RetryAfter c ->
  retryGroup c k now' l' ig' = (ig', None).
Proof.
  intros Hbatch Hsent Hnow' Hearly.
  assert (lastSent ig' = sent) as Hlast.
  { destruct Hbatch as [Hres|Hres].
    - unfold dispatchGroup in Hres.
      destruct ((0 <? len (collectUnsent (attempts ig) l))
                && shouldFlush c now ig (collectUnsent (attempts ig) l));
        [|done].
      destruct (slice_to _ _); cbn [mbind result_bind] in Hres; [|done].
      by injection Hres as <- _.
    - by eapply retryGroup_Some_lastSent. }
  unfold retryGroup. rewrite Hlast.
  rewrite (Int64Facts.sub_unix_nano _ _ Hnow' Hsent).
  assert ((now' - sent <? RetryAfter c) = true) as -> by lia.
  by destruct (Z.of_nat (size (items ig')) =? 0), (sent =? 0).
Qed.

End MoreVisits.

(** ** More on runs *)

Section MoreRuns.

Context {Item : Type} `{SyncItem Item}.

Implicit Types (c : Config Item) (e : SyncEngine Item)
  (ig : itemGroup Item) (l : list (string * Item)).

(** *** The counter counts the batches *)

Lemma dispatch_visit_exact c k now now2 l ig ig' t key :
  keyed ig -> l ≡ₚ map_to_list (items ig) ->
  dispatchGroup c k now now2 l ig = Ok (ig', t) ->
  getAttempt (attempts ig') key
  = getAttempt (attempts ig) key
    + (if decide (key ∈ Key <$> dispatched t) then 1 else 0).
Proof.
  intros Hkeyed Hl Hres.
  destruct (dispatch_visit_batch _ _ _ _ _ _ _ _ Hkeyed Hl Hres)
    as (_ & _ & Hin & Hone & Hsame & _).
  destruct (decide (key ∈ Key <$> dispatched t)) as [Hkey|Hkey].
  - rewrite (Hone _ Hkey).
    apply (list_elem_of_fmap_1 Key) in Hkey as (it & -> & Hit).
    destruct (Hin it Hit) as (_ & _ & ->). done.
  - unfold getAttempt. rewrite (Hsame _ Hkey). lia.
Qed.

Lemma retryable_keys c l ig key :
  keyed ig -> l ≡ₚ map_to_list (items ig) ->
  key ∈ Key <$> retryableOf c l ig
  <-> key ∈ l.*1 /\ getAttempt (attempts ig) key < MaxRetry c.
Proof.
  intros Hkeyed Hl. unfold retryableOf. split.
  - intros (it & -> & ([k' it'] & Heq & [Hlt Hin]%list_elem_of_filter)
              %list_elem_of_fmap)%list_elem_of_fmap.
    simpl in Heq, Hlt. subst it'.
    pose proof (proj1 (range_elem _ _ _ _ Hl) Hin) as Hstored.
    rewrite (Hkeyed _ _ Hstored). split; [|done].
    by apply (list_elem_of_fmap_2 fst) in Hin.
  - intros [([k' it] & -> & Hin)%list_elem_of_fmap Hlt]. simpl in Hlt.
    pose proof (proj1 (range_elem _ _ _ _ Hl) Hin) as Hstored.
    apply list_elem_of_fmap. exists it. split; [by rewrite (Hkeyed _ _ Hstored)|].
    apply list_elem_of_fmap. exists (k', it). split; [done|].
    by apply list_elem_of_filter.
Qed.

Lemma retry_visit_exact c group now l ig key :
  keyed ig -> Int64.in_range (MaxRetry c) -> bounded (MaxRetry c) ig ->
  l ≡ₚ map_to_list (items ig) ->
  getAttempt (attempts (retryGroup c group now l ig).1) key
  = getAttempt (attempts ig) key
    + (if decide (key ∈ Key <$> dispatched (retryGroup c group now l ig).2)
       then 1 else 0).
Proof.
  intros Hkeyed Hmax Hb Hl.
  destruct (retryGroup_result c group now l ig Hl) as [->|[_ ->]].
  { cbn [fst snd dispatched from_option]. rewrite decide_False; [lia|].
    apply not_elem_of_nil. }
  cbn [fst snd dispatched from_option batch attempts].
  destruct (decide (key ∈ Key <$> retryableOf c l ig)) as [Hkey|Hkey].
  - apply (retryable_keys c l ig key Hkeyed Hl) in Hkey as [Hin Hlt].
    unfold getAttempt at 1.
    rewrite collectRetry_fst_in; [|by eapply range_NoDup|done|done].
    simpl. eapply Int64Facts.add_one_exact; [|exact Hmax|exact Hlt].
    pose proof (bounded_getAttempt _ _ key Hb).
    unfold Int64.in_range, Int64.min_int, Int64.max_int in *. lia.
  - unfold getAttempt at 1. rewrite collectRetry_fst_other.
    + fold (getAttempt (attempts ig) key). lia.
    + destruct (decide (key ∈ l.*1)) as [Hin|Hnotin]; [right|by left].
      intros Hlt. apply Hkey. by apply (retryable_keys c l ig key Hkeyed Hl).
Qed.

Lemma storeGroup_attemptOf e k ig group key :
  attemptOf (storeGroup e k ig) group key
  = if decide (group = k) then getAttempt (attempts ig) key
    else attemptOf e group key.
Proof.
  unfold attemptOf. rewrite storeGroup_lookup. by case_decide.
Qed.

Lemma Ack_attemptOf_present e g keys group key :
  present (Ack e g keys) group key ->
  attemptOf (Ack e g keys) group key = attemptOf e group key.
Proof.
  intros (rec & Hrec & Hstored). unfold attemptOf. rewrite Hrec.
  rewrite Ack_lookup in Hrec. destruct (decide (group = g)) as [->|Hne].
  - destruct (cache e !! g) as [ig|] eqn:Hg; [|done].
    injection Hrec as <-. rewrite ackKeys_items in Hstored.
    unfold getAttempt. rewrite ackKeys_attempts.
    destruct (decide (key ∈ keys)); [by destruct Hstored|done].
  - by rewrite Hrec.
Qed.

Lemma sends_counts e1 e2 group key n :
  Inv e1 -> sends group key e1 e2 n ->
  Inv e2 /\ 0 <= n
  /\ attemptOf e2 group key = attemptOf e1 group key + n.
Proof.
  intros Hinv.
  induction 1 as [e _|e1 e2 item n _ IH _|e1 e2 g keys n _ IH Hpresent
                 |e1 e2 k ig now now2 l ig' t n _ IH Hk Hl Hres _
                 |e1 e2 k ig now l ig' t n _ IH Hk Hl Hres _].
  - split; [done|]. split; lia.
  - destruct (IH Hinv) as (Hinv2 & Hn & Hcount).
    split; [eapply Inv_step; [exact Hinv2|apply step_Add]|].
    split; [done|]. by rewrite Add_attemptOf.
  - destruct (IH Hinv) as (Hinv2 & Hn & Hcount).
    split; [eapply Inv_step; [exact Hinv2|apply step_Ack]|].
    split; [done|]. by rewrite Ack_attemptOf_present.
  - destruct (IH Hinv) as (Hinv2 & Hn & Hcount).
    split; [eapply Inv_step; [exact Hinv2|by eapply step_dispatch]|].
    destruct Hinv2 as [_ Hrecs]. destruct (Hrecs _ _ Hk) as [Hkeyed _].
    rewrite storeGroup_attemptOf. unfold countSend.
    destruct (decide (group = k)) as [->|Hne].
    + rewrite (dispatch_visit_exact _ _ _ _ _ _ _ _ key Hkeyed Hl Hres).
      unfold attemptOf at 1 in Hcount. rewrite Hk in Hcount.
      destruct (decide (key ∈ Key <$> dispatched t)).
      * rewrite decide_True by done. lia.
      * rewrite decide_False by tauto. lia.
    + rewrite decide_False by (intros [? _]; congruence). lia.
  - destruct (IH Hinv) as (Hinv2 & Hn & Hcount).
    split; [eapply Inv_step; [exact Hinv2|by eapply step_retry]|].
    destruct Hinv2 as [Hmax Hrecs]. destruct (Hrecs _ _ Hk) as [Hkeyed Hb].
    rewrite storeGroup_attemptOf. unfold countSend.
    destruct (decide (group = k)) as [->|Hne].
    + pose proof (retry_visit_exact (cfg e2) k now l ig key
                    Hkeyed Hmax Hb Hl) as Hexact.
      rewrite Hres in Hexact. cbn [fst snd] in Hexact. rewrite Hexact.
      unfold attemptOf at 1 in Hcount. rewrite Hk in Hcount.
      destruct (decide (key ∈ Key <$> dispatched t)).
      * rewrite decide_True by done. lia.
      * rewrite decide_False by tauto. lia.
    + rewrite decide_False by (intros [? _]; congruence). lia.
Qed.

Lemma sends_cfg e1 e2 group key n :
  sends group key e1 e2 n -> cfg e2 = cfg e1.
Proof.
  induction 1 as [e _|e1 e2 item n _ IH _|e1 e2 g keys n _ IH _
                 |e1 e2 k ig now now2 l ig' t n _ IH _ _ _ _
                 |e1 e2 k ig now l ig' t n _ IH _ _ _ _]; try done.
  - by rewrite Add_cfg.
  - by rewrite Ack_cfg.
Qed.

(** X16.  The attempt count counts batches.  Along every run during which
    a key stays stored, from a state that satisfies the engine's
    invariant, its attempt count grows by exactly the number of submitted
    batches, dispatch and retry together, that held its item.  So from
    the moment an item is stored with count 0, it is handed to the
    callback at most [max 1 MaxRetry] times. *)
Theorem attempts_count_batches e1 e2 group key n :
  Inv e1 ->
  sends group key e1 e2 n ->
  attemptOf e2 group key = attemptOf e1 group key + n
  /\ 0 <= n
  /\ n <= Z.max 1 (MaxRetry (cfg e1)) - attemptOf e1 group key
  /\ n <= Z.max 1 (MaxRetry (cfg e1)).
Proof.
  intros Hinv Hrun.
  destruct (sends_counts _ _ _ _ _ Hinv Hrun) as (Hinv2 & Hn & Hcount).
  pose proof (Inv_attemptOf e2 group key Hinv2) as Hbound2.
  pose proof (Inv_attemptOf e1 group key Hinv) as Hbound1.
  rewrite (sends_cfg _ _ _ _ _ Hrun) in Hbound2. lia.
Qed.

(** *** Counters belong to stored items *)

Lemma Tidy_NewEngine c : Tidy (NewEngine c).
Proof. intros g ig Hg. simpl in Hg. by rewrite lookup_empty in Hg. Qed.

Lemma tidy_emptyGroup : tidy (emptyGroup (Item := Item)).
Proof. intros k [a Hk]. simpl in Hk. by rewrite lookup_empty in Hk. Qed.

Lemma Tidy_step e e' : Tidy e -> step e e' -> Tidy e'.
Proof.
  intros Htidy Hstep.
  destruct Hstep as [e item|e group keys|e k ig now now2 l ig' t Hk Hl Hres
                    |e k ig now l ig' t Hk Hl Hres]; intros g rec.
  - rewrite Add_lookup. destruct (decide (g = Group item)) as [->|Hne];
      [|by apply Htidy].
    intros [= <-].
    assert (keyed (default emptyGroup (cache e !! Group item))
            /\ tidy (default emptyGroup (cache e !! Group item))) as [Hkd Htd].
    { destruct (cache e !! Group item) as [ig0|] eqn:Hg; simpl.
      - by apply (Htidy _ _ Hg).
      - split; [apply keyed_emptyGroup|apply tidy_emptyGroup]. }
    split.
    + intros k it. cbn [items].
      destruct (decide (k = Key item)) as [->|Hk].
      * rewrite lookup_insert_eq. by intros [= <-].
      * rewrite lookup_insert_ne by done. apply Hkd.
    + intros k Hk. cbn [items attempts] in *.
      destruct (decide (k = Key item)) as [->|Hne].
      * rewrite lookup_insert_eq. by eexists.
      * rewrite lookup_insert_ne by done. by apply Htd.
  - rewrite Ack_lookup. destruct (decide (g = group)) as [->|Hne];
      [|by apply Htidy].
    destruct (cache e !! group) as [ig|] eqn:Hg; [|done].
    intros [= <-]. destruct (Htidy _ _ Hg) as [Hkd Htd]. split.
    + intros k it. rewrite ackKeys_items. case_decide; [done|apply Hkd].
    + intros k. rewrite ackKeys_items, ackKeys_attempts.
      case_decide; [by intros [? ?]|apply Htd].
  - rewrite storeGroup_lookup. destruct (decide (g = k)) as [->|Hne];
      [|by apply Htidy].
    intros [= <-]. destruct (Htidy _ _ Hk) as [Hkd Htd].
    destruct (dispatch_visit_batch _ _ _ _ _ _ _ _ Hkd Hl Hres)
      as (Hitems & _ & Hin & _ & Hsame & _).
    split.
    + intros key it. rewrite Hitems. apply Hkd.
    + intros key Hkey. rewrite Hitems.
      destruct (decide (key ∈ Key <$> dispatched t)) as [Hsent|Hnot].
      * apply (list_elem_of_fmap_1 Key) in Hsent as (it & -> & Hit).
        destruct (Hin it Hit) as (_ & Hstored & _). by eexists.
      * rewrite (Hsame _ Hnot) in Hkey. by apply Htd.
  - rewrite storeGroup_lookup. destruct (decide (g = k)) as [->|Hne];
      [|by apply Htidy].
    intros [= <-]. destruct (Htidy _ _ Hk) as [Hkd Htd].
    destruct (retryGroup_result (cfg e) k now l ig Hl) as [Hskip|[_ Hgo]];
      rewrite Hres in *.
    + injection Hskip as -> _. by split.
    + injection Hgo as -> _. cbn [items attempts]. split; [done|].
      intros key Hkey. cbn [attempts] in Hkey.
      destruct (decide (key ∈ l.*1)) as [Hin|Hnotin].
      * by apply (range_keys _ _ _ Hl).
      * rewrite collectRetry_fst_other in Hkey by (by left). by apply Htd.
Qed.

(** X17.  In every state a fresh engine can reach, only stored items
    have counters: a key that is not stored in a group has attempt count
    0 there, so an item added under a key that is not stored starts
    unsent. *)
Theorem absent_key_has_no_count c e :
  rtc step (NewEngine c) e ->
  Tidy e
  /\ (forall g k, itemOf e g k = None -> attemptOf e g k = 0)
  /\ (forall item,
        itemOf e (Group item) (Key item) = None ->
        attemptOf (Add e item) (Group item) (Key item) = 0).
Proof.
  intros Hrun.
  assert (Tidy e) as Htidy.
  { pose proof (Tidy_NewEngine c) as Hstart. revert Hstart.
    induction Hrun as [e|e1 e2 e3 Hstep _ IH]; [done|].
    intros Hstart. by eapply IH, Tidy_step. }
  assert (forall g k, itemOf e g k = None -> attemptOf e g k = 0) as Habsent.
  { intros g k. unfold itemOf, attemptOf.
    destruct (cache e !! g) as [ig|] eqn:Hg; simpl; [|done].
    intros Hnone. destruct (Htidy _ _ Hg) as [_ Htd]. unfold getAttempt.
    destruct (attempts ig !! k) as [a|] eqn:Ha; [|done].
    destruct (Htd k) as [it Hit]; [by eexists|]. congruence. }
  split; [done|]. split; [done|].
  intros item Hnone. rewrite Add_attemptOf. by apply Habsent.
Qed.

End MoreRuns.

(** ** The submitted closure, continued *)

Section MoreTasks.

Context {Item : Type} `{SyncItem Item}.

Implicit Types (c : Config Item) (t : Task Item).

(** X18.  The only panic that can leave a task is a panic of the logger
    while it logs the warning: a panic of the start message or of the
    callback is recovered first, and the panic that leaves is the one the
    logger raises when it is called with the recovered value. *)
Theorem only_warning_panic_leaves_task c t v :
  (runTask c t).2 = Panicked v ->
  exists r,
    ((callLogger c (startMessage (kind t)) []).2 = Panicked r
     \/ ((callLogger c (startMessage (kind t)) []).2 = Returned
         /\ (callOnDispatch c (tgroup t) (batch t)).2 = Panicked r))
    /\ (callLogger c warnFormat [r]).2 = Panicked v.
Proof.
  unfold runTask, recovered.
  destruct (callLogger c (startMessage (kind t)) []) as [ev1 [|r1]].
  - destruct (callOnDispatch c (tgroup t) (batch t)) as [ev2 [|r2]];
      [done|].
    destruct (callLogger c warnFormat [r2]) as [ev3 o3] eqn:Hwarn.
    simpl. intros ->. exists r2. split; [by right|]. by rewrite Hwarn.
  - destruct (callLogger c warnFormat [r1]) as [ev3 o3] eqn:Hwarn.
    simpl. intros ->. exists r1. split; [by left|]. by rewrite Hwarn.
Qed.



End MoreTasks.

(** ** Whole ticks *)

Section Ticks.

Context {Item : Type} `{SyncItem Item}.

Implicit Types (c : Config Item) (e : SyncEngine Item)
  (ig : itemGroup Item) (m : gmap string (itemGroup Item))
  (visit : string -> itemGroup Item
           -> result (itemGroup Item * option (Task Item))).


Lemma schedule_groups e ord gs :
  schedule e ord gs ->
  NoDup gs /\ forall g, g ∈ gs <-> is_Some (cache e !! g).
Proof.
  intros [Hgs _]. split.
  - rewrite Hgs. apply NoDup_fst_map_to_list.
  - intros g. rewrite Hgs. split.
    + intros ([g' ig] & -> & Hin)%list_elem_of_fmap.
      apply elem_of_map_to_list in Hin. by eexists.
    + intros [ig Hg]. apply elem_of_map_to_list in Hg.
      by apply (list_elem_of_fmap_2 fst) in Hg.
Qed.






Lemma Range_run c s visit gs m acc m' ts :
  NoDup gs ->
  (forall g ig r, g ∈ gs -> m !! g = Some ig -> visit g ig = Ok r ->
     forall m0, m0 !! g = Some ig ->
       step {| cache := m0; cfg := c; stop := s |}
            {| cache := <[g := r.1]> m0; cfg := c; stop := s |}) ->
  Range visit gs m acc = Ok (m', ts) ->
  rtc step {| cache := m; cfg := c; stop := s |}
           {| cache := m'; cfg := c; stop := s |}.
Proof.
  intros Hnd. revert m acc.
  induction Hnd as [|g gs Hfresh Hnd IH]; intros m acc Hstep Hres.
  { cbn [Range] in Hres. injection Hres as <- _. apply rtc_refl. }
  cbn [Range] in Hres. destruct (m !! g) as [ig|] eqn:Hg.
  - destruct (visit g ig) as [r|v] eqn:Hvisit; [|done].
    eapply rtc_l.
    + apply (Hstep g ig r); [by left|done|done|done].
    + eapply IH; [|exact Hres].
      intros g' ig' r' Hg' Hlook Hvisit' m0 Hm0.
      assert (g' <> g) as Hne by (intros ->; done).
      rewrite lookup_insert_ne in Hlook by done.
      apply (Hstep g' ig' r'); [by right|done..].
  - eapply IH; [|exact Hres].
    intros g' ig' r' Hg' Hlook Hvisit' m0 Hm0.
    apply (Hstep g' ig' r'); [by right|done..].
Qed.

(** X22.  A tick is a run of the step relation: the engine a dispatch
    tick or a retry tick returns is reached from the engine it started on
    by one visit step for each group.  Whatever holds along every run of
    steps, the bound on the attempt counts among it, holds across whole
    ticks. *)
Theorem ticks_are_runs e now clock ord gs e' ts :
  schedule e ord gs ->
  dispatchTick e now clock ord gs = Ok (e', ts)
  \/ retryTick e now ord gs = Ok (e', ts) ->
  rtc step e e'.
Proof.
  intros Hsched Htick.
  destruct (schedule_groups e ord gs Hsched) as [Hnd _].
  destruct Hsched as [_ Hord]. destruct e as [m c s]. cbn [cache cfg] in *.
  destruct Htick as [Htick|Htick].
  - unfold dispatchTick in Htick. cbn [cache cfg stop] in Htick.
    destruct (Range _ gs m []) as [[m' ts']|v] eqn:Hres;
      cbn [mbind result_bind] in Htick; [|done].
    injection Htick as <- _. cbn [fst].
    eapply Range_run; [exact Hnd| |exact Hres].
    intros g ig [ig' t] _ Hlook Hvisit m0 Hm0.
    apply (step_dispatch {| cache := m0; cfg := c; stop := s |} g ig now
             (clock g) (ord g) ig' t); [done|by apply Hord|done].
  - unfold retryTick in Htick. cbn [cache cfg stop] in Htick.
    destruct (Range _ gs m []) as [[m' ts']|v] eqn:Hres;
      cbn [mbind result_bind] in Htick; [|done].
    injection Htick as <- _. cbn [fst].
    eapply Range_run; [exact Hnd| |exact Hres].
    intros g ig [ig' t] _ Hlook [= Hvisit] m0 Hm0.
    apply (step_retry {| cache := m0; cfg := c; stop := s |} g ig now
             (ord g) ig' t); [done|by apply Hord|done].
Qed.

End Ticks.

(** ** The further properties at concrete engines *)

Module MoreExamples.

Import ExampleTest Scenario Examples.

Lemma keyed_neverSent : keyed neverSent.
Proof.
  intros k it Hk. cbn [neverSent items] in Hk.
  by apply lookup_singleton_Some in Hk as [<- <-].
Qed.

Lemma keyed_sentOnce : keyed sentOnce.
Proof.
  intros k it Hk. cbn [sentOnce items] in Hk.
  by apply lookup_singleton_Some in Hk as [<- <-].
Qed.

Lemma schedule_oneAdded c :
  schedule (oneAdded c) (itemsOf (oneAdded c)) (groupsOf (oneAdded c)).
Proof.
  split; [reflexivity|]. intros g ig Hg.
  unfold itemsOf, groupOf. by rewrite Hg.
Qed.

Lemma Add_last_write_wins_witness :
  Add (Add (NewEngine logging) (order "ORD_000")) revised
  = Add (NewEngine logging) revised.
Proof.
  apply (Add_last_write_wins (NewEngine logging) (order "ORD_000") revised);
    reflexivity.
Defined.

Lemma Add_commute_witness :
  Add (Add (NewEngine logging) (order "ORD_000")) (order "ORD_001")
  = Add (Add (NewEngine logging) (order "ORD_001")) (order "ORD_000").
Proof.
  apply (Add_commute (NewEngine logging) (order "ORD_000") (order "ORD_001")).
  right. vm_compute. discriminate.
Defined.

Lemma Ack_key_set_witness :
  Ack (threeAdded logging) "JP101" ["ORD_000"; "ORD_002"; "ORD_000"]
  = Ack (threeAdded logging) "JP101" ["ORD_002"; "ORD_000"].
Proof.
  apply (Ack_key_set (threeAdded logging) "JP101"
           ["ORD_000"; "ORD_002"; "ORD_000"] ["ORD_002"; "ORD_000"]).
  intros k. rewrite !elem_of_cons. pose proof (elem_of_nil k). tauto.
Defined.

Lemma readd_starts_over_witness :
  attemptOf (storeGroup (oneAdded logging) "JP101" sentOnce)
    "JP101" "ORD_000" = 1
  /\ attemptOf (Add (Ack (storeGroup (oneAdded logging) "JP101" sentOnce)
                       "JP101" ["ORD_000"]) revised)
       "JP101" "ORD_000" = 0.
Proof.
  split; [reflexivity|].
  destruct (readd_starts_over
              (storeGroup (oneAdded logging) "JP101" sentOnce)
              ["ORD_000"] revised) as [_ Hzero]; [by left|exact Hzero].
Defined.

Lemma groups_never_removed_witness :
  is_Some (cache (Ack (storeGroup (oneAdded logging) "JP101" sentOnce)
                    "JP101" ["ORD_000"]) !! "JP101").
Proof.
  destruct (groups_never_removed (oneAdded logging)
              (Ack (storeGroup (oneAdded logging) "JP101" sentOnce)
                 "JP101" ["ORD_000"])) as (Hgroups & _).
  - eapply rtc_l; [by apply dispatch_step|].
    eapply rtc_l; [apply step_Ack|]. apply rtc_refl.
  - apply Hgroups. rewrite oneAdded_lookup. by eexists.
Defined.

Lemma dispatch_zero_BatchSize_witness :
  dispatchGroup emptyBatches "JP101" t0 t0 (rangeOf neverSent) neverSent
  = Ok ({| items := items neverSent; attempts := ∅; lastSent := t0 |},
        Some {| kind := DispatchTask; tgroup := "JP101"; batch := [] |}).
Proof.
  apply (dispatch_zero_BatchSize emptyBatches "JP101" t0 t0
           (rangeOf neverSent) neverSent).
  - reflexivity.
  - vm_compute. discriminate.
Defined.

Lemma dispatch_waits_witness :
  dispatchGroup logging "JP101" (t0 + 500000000) (t0 + 500000000)
    (rangeOf sentThenAdded) sentThenAdded
  = Ok (sentThenAdded, None).
Proof.
  apply (dispatch_waits logging "JP101" (t0 + 500000000) (t0 + 500000000)
           (rangeOf sentThenAdded) sentThenAdded).
  - apply unix_nano_t0. unfold year. lia.
  - apply (unix_nano_t0 0). unfold year. lia.
  - vm_compute. reflexivity.
  - simpl. lia.
Defined.

Lemma dispatch_flushes_all_witness :
  exists ig',
    dispatchGroup logging "JP101" t0 t0 (rangeOf neverSent) neverSent
    = Ok (ig', Some {| kind := DispatchTask; tgroup := "JP101";
                       batch := collectUnsent (attempts neverSent)
                                  (rangeOf neverSent) |})
    /\ collectUnsent (attempts ig') (map_to_list (items ig')) = [].
Proof.
  destruct (dispatch_flushes_all logging "JP101" t0 t0 (rangeOf neverSent)
              neverSent) as (ig' & Hres & Hnone).
  - apply keyed_neverSent.
  - reflexivity.
  - apply (unix_nano_t0 0). unfold year. lia.
  - unfold Int64.unix_nano, Int64.max_int. simpl. lia.
  - vm_compute. discriminate.
  - vm_compute. reflexivity.
  - vm_compute. reflexivity.
  - exists ig'. split; [exact Hres|]. by apply Hnone.
Defined.

Lemma dispatch_batch_sound_witness :
  len (batch firstTask) = 1
  /\ lastSent sentOnce = t0
  /\ getAttempt (attempts sentOnce) "ORD_000" = 1.
Proof.
  destruct (dispatch_batch_sound logging "JP101" t0 t0 (rangeOf neverSent)
              neverSent sentOnce firstTask)
    as (Hlen & _ & Hin & _ & _ & Hsent).
  - apply keyed_neverSent.
  - reflexivity.
  - by apply first_dispatch.
  - split; [|split; [exact Hsent|]].
    + rewrite Hlen. vm_compute. reflexivity.
    + apply (Hin (order "ORD_000")). by left.
Defined.

Lemma dispatch_not_twice_witness :
  exists ig1 t1 ig2 t2,
    dispatchGroup batchesOfTwo "JP101" t0 t0
      (rangeOf (groupOf (threeAdded batchesOfTwo) "JP101"))
      (groupOf (threeAdded batchesOfTwo) "JP101") = Ok (ig1, t1)
    /\ dispatchGroup batchesOfTwo "JP101" (t0 + 2000000000) (t0 + 2000000000) (rangeOf ig1) ig1
       = Ok (ig2, t2)
    /\ len (dispatched t1) = 2
    /\ len (dispatched t2) = 1
    /\ forall key, key ∈ Key <$> dispatched t1 ->
                   key ∉ Key <$> dispatched t2.
Proof.
  do 4 eexists.
  split; [vm_compute; reflexivity|].
  split; [vm_compute; reflexivity|].
  split; [reflexivity|]. split; [reflexivity|].
  eapply (dispatch_not_twice batchesOfTwo "JP101" t0 t0
            (rangeOf (groupOf (threeAdded batchesOfTwo) "JP101"))
            (t0 + 2000000000) (t0 + 2000000000) _
            (groupOf (threeAdded batchesOfTwo) "JP101")).
  - apply keyed_groupOf, Inv_threeAdded, in_range_small. simpl. lia.
  - reflexivity.
  - vm_compute. reflexivity.
  - reflexivity.
  - vm_compute. reflexivity.
Defined.

Lemma retry_waits_after_batch_witness :
  retryGroup logging "JP101" (t0 + 5) (rangeOf sentOnce) sentOnce
  = (sentOnce, None).
Proof.
  apply (retry_waits_after_batch logging "JP101" t0 t0 (rangeOf neverSent)
           neverSent sentOnce firstTask (t0 + 5) (rangeOf sentOnce)).
  - left. by apply first_dispatch.
  - apply (unix_nano_t0 0). unfold year. lia.
  - apply unix_nano_t0. unfold year. lia.
  - simpl. lia.
Defined.

Lemma attempts_count_batches_witness :
  attemptOf (storeGroup (oneAdded logging) "JP101" sentOnce)
    "JP101" "ORD_000"
  = attemptOf (oneAdded logging) "JP101" "ORD_000" + 1.
Proof.
  destruct (attempts_count_batches (oneAdded logging)
              (storeGroup (oneAdded logging) "JP101" sentOnce)
              "JP101" "ORD_000"
              (0 + countSend "JP101" "ORD_000" "JP101" (Some firstTask)))
    as (Hcount & _).
  - apply Inv_oneAdded, in_range_small. simpl. lia.
  - apply (sends_dispatch "JP101" "ORD_000" (oneAdded logging)
             (oneAdded logging) "JP101" neverSent t0 t0
             (rangeOf neverSent) sentOnce (Some firstTask) 0).
    + apply sends_refl. exists neverSent.
      split; [apply oneAdded_lookup|]. eexists. vm_compute. reflexivity.
    + apply oneAdded_lookup.
    + reflexivity.
    + by apply first_dispatch.
    + apply present_sentOnce.
  - exact Hcount.
Defined.

Lemma absent_key_has_no_count_witness :
  attemptOf (Add (Ack (storeGroup (oneAdded logging) "JP101" sentOnce)
                    "JP101" ["ORD_000"]) (order "ORD_001"))
    "JP101" "ORD_001" = 0.
Proof.
  destruct (absent_key_has_no_count logging
              (Ack (storeGroup (oneAdded logging) "JP101" sentOnce)
                 "JP101" ["ORD_000"])) as (_ & _ & Hnew).
  - eapply rtc_l; [apply step_Add|].
    eapply rtc_l; [by apply dispatch_step|].
    eapply rtc_l; [apply step_Ack|]. apply rtc_refl.
  - apply (Hnew (order "ORD_001")). vm_compute. reflexivity.
Defined.

Lemma only_warning_panic_leaves_task_witness :
  exists r,
    ((callLogger noLogger (startMessage (kind firstTask)) []).2 = Panicked r
     \/ ((callLogger noLogger (startMessage (kind firstTask)) []).2
         = Returned
         /\ (callOnDispatch noLogger (tgroup firstTask) (batch firstTask)).2
            = Panicked r))
    /\ (callLogger noLogger warnFormat [r]).2 = Panicked NilFuncCall.
Proof.
  apply (only_warning_panic_leaves_task noLogger firstTask NilFuncCall).
  reflexivity.
Defined.



Lemma ticks_are_runs_witness :
  rtc step (oneAdded logging)
    (storeGroup (oneAdded logging) "JP101" sentOnce).
Proof.
  apply (ticks_are_runs (oneAdded logging) t0 frozen
           (itemsOf (oneAdded logging)) (groupsOf (oneAdded logging))
           (storeGroup (oneAdded logging) "JP101" sentOnce) [firstTask]).
  - apply schedule_oneAdded.
  - left. vm_compute. reflexivity.
Defined.

End MoreExamples.
